(** * Node permissions and the account manager

    A shallow embedding of
      - libraries/networking/src/NodePermissions.h
      - libraries/shared/src/AccountManager.cpp
    Qt's value types (QString, QVariant, QMap, QUrl, QJsonObject) are
    modelled by the data they carry; the objects the account manager talks
    to (network access manager, settings store, signal emission, debug
    output) are components of an explicit world that every member function
    threads through. *)

From Stdlib Require Import ZArith.
From stdpp Require Import gmap strings list fin_maps.

Local Open Scope string_scope.

(** ** Qt value types *)

Module Qt.

(** Lower-casing of one Latin-1 letter of the ASCII range, as QString::toLower
    does on such text. *)
Definition ascii_toLower (c : Ascii.ascii) : Ascii.ascii :=
  let n := Ascii.nat_of_ascii c in
  if (65 <=? n)%nat && (n <=? 90)%nat then Ascii.ascii_of_nat (n + 32) else c.

Fixpoint toLower (s : string) : string :=
  match s with
  | EmptyString => EmptyString
  | String c r => String (ascii_toLower c) (toLower r)
  end.

(** QVariant, restricted to the payloads this code stores: nothing (an
    invalid variant, what QMap::operator[] default-constructs), a bool, a
    QString, a QMap<QString, QVariant>. *)
#[warnings="-register-all"]
Inductive QVariant : Type :=
| QInvalid
| QBool (b : bool)
| QStr (s : string)
| QVariantMap (m : gmap string QVariant).

(** QVariant::toString: the string itself, "true"/"false" for a bool, an
    empty string for anything that does not convert. *)
Definition toString (v : QVariant) : string :=
  match v with
  | QStr s => s
  | QBool true => "true"
  | QBool false => "false"
  | QInvalid | QVariantMap _ => ""
  end.

(** QVariant::toBool: the bool itself; a string is true unless its
    lower-case content is empty, "0" or "false"; false otherwise. *)
Definition toBool (v : QVariant) : bool :=
  match v with
  | QBool b => b
  | QStr s =>
      let l := toLower s in
      negb (bool_decide (l = "") || bool_decide (l = "0") || bool_decide (l = "false"))
  | QInvalid | QVariantMap _ => false
  end.

(** QVariant::toMap: the map itself, an empty map otherwise. *)
Definition toMap (v : QVariant) : gmap string QVariant :=
  match v with
  | QVariantMap m => m
  | _ => ∅
  end.

(** QMap::operator[] on a by-value map, read side: the stored value, or a
    default-constructed one when the key is absent. *)
Definition index (m : gmap string QVariant) (k : string) : QVariant :=
  default QInvalid (m !! k).

(** QString::replace(before, after) for a non-empty [before]: every
    occurrence, scanned left to right, occurrences do not overlap. [skip]
    counts the characters of a matched occurrence still to be dropped. *)
Fixpoint replace_from (skip : nat) (before after s : string) : string :=
  match s with
  | EmptyString => EmptyString
  | String c r =>
      match skip with
      | S k => replace_from k before after r
      | O =>
          if String.prefix before s
          then after +:+ replace_from (String.length before - 1) before after r
          else String c (replace_from 0 before after r)
      end
  end.

Definition replace (before after s : string) : string :=
  replace_from 0 before after s.

(** QUrl by its components. [url_query] and [url_fragment] are [None] when
    the URL has none. *)
Record QUrl : Type := mkQUrl {
  url_scheme : string;
  url_authority : string;
  url_path : string;
  url_query : option string;
  url_fragment : option string
}.

#[export] Instance QUrl_eq_dec : EqDecision QUrl.
Proof. solve_decision. Defined.

Definition QUrl_to_tuple (u : QUrl) :
    string * string * string * option string * option string :=
  (url_scheme u, url_authority u, url_path u, url_query u, url_fragment u).

Definition QUrl_of_tuple
    (t : string * string * string * option string * option string) : QUrl :=
  let '(s, a, p, q, f) := t in mkQUrl s a p q f.

#[export] Instance QUrl_countable : Countable QUrl.
Proof.
  apply (inj_countable' QUrl_to_tuple QUrl_of_tuple).
  intros u. destruct u as [s a p q f]. reflexivity.
Defined.

(** The default-constructed (empty) QUrl. *)
Definition QUrl_empty : QUrl := mkQUrl "" "" "" None None.

Definition setPath (path : string) (u : QUrl) : QUrl :=
  mkQUrl (url_scheme u) (url_authority u) path (url_query u) (url_fragment u).

Definition setQuery (query : string) (u : QUrl) : QUrl :=
  mkQUrl (url_scheme u) (url_authority u) (url_path u) (Some query) (url_fragment u).

(** QUrl::toString: scheme ":" "//" authority path "?" query "#" fragment,
    each separator only with its component. *)
Definition QUrl_toString (u : QUrl) : string :=
  (if bool_decide (url_scheme u = "") then "" else url_scheme u +:+ ":")
  +:+ (if bool_decide (url_authority u = "") then "" else "//" +:+ url_authority u)
  +:+ url_path u
  +:+ match url_query u with Some q => "?" +:+ q | None => "" end
  +:+ match url_fragment u with Some f => "#" +:+ f | None => "" end.

(** QJsonValue, with numbers as integers (the only numeric field read here,
    [expires_in], is a count). [JUndefined] is what [operator[]] gives for a
    missing key. *)
Inductive QJsonValue : Type :=
| JUndefined
| JNull
| JBool (b : bool)
| JNumber (n : Z)
| JString (s : string).

(** A QJsonObject is a map from member names to values. *)
Definition QJsonObject_contains (o : gmap string QJsonValue) (k : string) : bool :=
  bool_decide (is_Some (o !! k)).

Definition QJsonObject_index (o : gmap string QJsonValue) (k : string) : QJsonValue :=
  default JUndefined (o !! k).

Definition QJsonValue_toString (v : QJsonValue) : string :=
  match v with JString s => s | _ => "" end.

Definition QJsonValue_toInt (v : QJsonValue) : Z :=
  match v with JNumber n => n | _ => 0%Z end.

(** QNetworkAccessManager::Operation. *)
Inductive Operation : Type :=
| HeadOperation
| GetOperation
| PutOperation
| PostOperation
| DeleteOperation
| CustomOperation.

(** QNetworkRequest::KnownHeaders, the ones of Qt 5. *)
Inductive KnownHeaders : Type :=
| ContentTypeHeader
| ContentLengthHeader
| LocationHeader
| LastModifiedHeader
| CookieHeader
| SetCookieHeader
| ContentDispositionHeader
| UserAgentHeader
| ServerHeader.

(** A QNetworkRequest: its URL, the known headers set with setHeader and the
    raw headers set with setRawHeader, both in the order they were set. *)
Record QNetworkRequest : Type := mkQNetworkRequest {
  req_url : QUrl;
  req_headers : list (KnownHeaders * string);
  req_rawHeaders : list (string * string)
}.

Definition QNetworkRequest_new : QNetworkRequest :=
  mkQNetworkRequest QUrl_empty [] [].

Definition setUrl (u : QUrl) (r : QNetworkRequest) : QNetworkRequest :=
  mkQNetworkRequest u (req_headers r) (req_rawHeaders r).

Definition setHeader (h : KnownHeaders) (v : string) (r : QNetworkRequest) : QNetworkRequest :=
  mkQNetworkRequest (req_url r) (req_headers r ++ [(h, v)]) (req_rawHeaders r).

End Qt.

(** ** NodePermissions.h *)

Module NodePermissions.
Import Qt.

Record NodePermissions : Type := mkNodePermissions {
  _id : string;
  canConnectToDomain : bool;
  canAdjustLocks : bool;
  canRezPermanentEntities : bool;
  canRezTemporaryEntities : bool;
  canWriteToAssetServer : bool;
  canConnectPastMaxCapacity : bool
}.

Definition getID (p : NodePermissions) : string := _id p.

(** The six capability flags, in declaration order. *)
Definition flags (p : NodePermissions) : list bool :=
  [canConnectToDomain p; canAdjustLocks p; canRezPermanentEntities p;
   canRezTemporaryEntities p; canWriteToAssetServer p; canConnectPastMaxCapacity p].

(** The member initialisers: [canConnectToDomain { true }], the rest
    [{ false }]. Every constructor that does not assign a flag leaves these. *)
Definition initialised (id : string) : NodePermissions :=
  {| _id := id;
     canConnectToDomain := true;
     canAdjustLocks := false;
     canRezPermanentEntities := false;
     canRezTemporaryEntities := false;
     canWriteToAssetServer := false;
     canConnectPastMaxCapacity := false |}.

(** [NodePermissions()]: the id is [QUuid::createUuid().toString()]; the
    generated text is the argument. *)
Definition fresh (uuid : string) : NodePermissions := initialised uuid.

(** [NodePermissions(const QString& name)]. *)
Definition named (name : string) : NodePermissions := initialised name.

(** [NodePermissions(QMap<QString, QVariant> perms)]. *)
Definition fromMap (perms : gmap string QVariant) : NodePermissions :=
  {| _id := toString (index perms "permissions_id");
     canConnectToDomain := toBool (index perms "id_can_connect");
     canAdjustLocks := toBool (index perms "id_can_adjust_locks");
     canRezPermanentEntities := toBool (index perms "id_can_rez");
     canRezTemporaryEntities := toBool (index perms "id_can_rez_tmp");
     canWriteToAssetServer := toBool (index perms "id_can_write_to_asset_server");
     canConnectPastMaxCapacity := toBool (index perms "id_can_connect_past_max_capacity") |}.

Definition setAll (value : bool) (p : NodePermissions) : NodePermissions :=
  {| _id := _id p;
     canConnectToDomain := value;
     canAdjustLocks := value;
     canRezPermanentEntities := value;
     canRezTemporaryEntities := value;
     canWriteToAssetServer := value;
     canConnectPastMaxCapacity := value |}.

(** [toVariant()]: the assignments in source order, wrapped in a QVariant. *)
Definition toVariant (p : NodePermissions) : QVariant :=
  let values : gmap string QVariant := ∅ in
  let values := <["permissions_id" := QStr (_id p)]> values in
  let values := <["id_can_connect" := QBool (canConnectToDomain p)]> values in
  let values := <["id_can_adjust_locks" := QBool (canAdjustLocks p)]> values in
  let values := <["id_can_rez" := QBool (canRezPermanentEntities p)]> values in
  let values := <["id_can_rez_tmp" := QBool (canRezTemporaryEntities p)]> values in
  let values := <["id_can_write_to_asset_server" := QBool (canWriteToAssetServer p)]> values in
  let values :=
    <["id_can_connect_past_max_capacity" := QBool (canConnectPastMaxCapacity p)]> values in
  QVariantMap values.

(** [const NodePermissions DEFAULT_AGENT_PERMISSIONS;] is default-constructed
    at start-up; [uuid] is the identifier generated then. *)
Definition DEFAULT_AGENT_PERMISSIONS (uuid : string) : NodePermissions := fresh uuid.

(** Modelled from the spec: [NodePermissions::operator|=] is only declared
    in NodePermissions.h; its body (NodePermissions.cpp) is not part of the
    sources at hand. The spec: "Merge operation is boolean OR across all
    flags, identifier untouched." *)
Definition or_assign (a b : NodePermissions) : NodePermissions :=
  {| _id := _id a;
     canConnectToDomain := canConnectToDomain a || canConnectToDomain b;
     canAdjustLocks := canAdjustLocks a || canAdjustLocks b;
     canRezPermanentEntities := canRezPermanentEntities a || canRezPermanentEntities b;
     canRezTemporaryEntities := canRezTemporaryEntities a || canRezTemporaryEntities b;
     canWriteToAssetServer := canWriteToAssetServer a || canWriteToAssetServer b;
     canConnectPastMaxCapacity := canConnectPastMaxCapacity a || canConnectPastMaxCapacity b |}.

(** The keys [toVariant] writes and the map constructor reads. *)
Definition persistedKeys : list string :=
  ["permissions_id"; "id_can_connect"; "id_can_adjust_locks"; "id_can_rez";
   "id_can_rez_tmp"; "id_can_write_to_asset_server"; "id_can_connect_past_max_capacity"].

End NodePermissions.

(** ** AccountManager.cpp *)

Module AccountManager.
Import Qt.

(** Modelled from the spec: OAuthAccessToken is declared in
    OAuthAccessToken.h, which is not part of the sources at hand. The spec:
    "AccessToken: { token: string, tokenType: string, expiry: timestamp }". *)
Record OAuthAccessToken : Type := mkOAuthAccessToken {
  token : string;
  tokenType : string;
  expiryTimestamp : Z
}.

(** Modelled from the spec: the default-constructed token, which
    [QMap::value] returns for a missing key, holds empty strings. *)
Definition OAuthAccessToken_default : OAuthAccessToken :=
  mkOAuthAccessToken "" "" 0.

(** Modelled from the spec: OAuthAccessToken::isExpired is not part of the
    sources at hand. The spec: "expired" is a pure function of [expiry] vs
    current time. *)
Definition isExpired (now : Z) (t : OAuthAccessToken) : bool :=
  (expiryTimestamp t <=? now)%Z.

(** Modelled from the spec: DataServerAccountInfo is declared in
    DataServerAccountInfo.h, which is not part of the sources at hand. The
    spec: "AccountInfo: owns one AccessToken". *)
Record DataServerAccountInfo : Type := mkDataServerAccountInfo {
  getAccessToken : OAuthAccessToken
}.

Definition DataServerAccountInfo_default : DataServerAccountInfo :=
  mkDataServerAccountInfo OAuthAccessToken_default.

(** Modelled from the spec: the constructor from the token response, fields
    [access_token], [token_type] and [expires_in], the expiry counted from
    the time the response is handled. *)
Definition DataServerAccountInfo_fromJson (now : Z) (o : gmap string QJsonValue) :
    DataServerAccountInfo :=
  mkDataServerAccountInfo
    (mkOAuthAccessToken
       (QJsonValue_toString (QJsonObject_index o "access_token"))
       (QJsonValue_toString (QJsonObject_index o "token_type"))
       (now + QJsonValue_toInt (QJsonObject_index o "expires_in"))).

(** A [QObject*]: [None] is NULL, [Some a] the object at address [a]. *)
Definition QObjectPtr : Type := option positive.

(** JSONCallbackParameters (AccountManager.h): the four members the slots
    below read. *)
Record JSONCallbackParameters : Type := mkJSONCallbackParameters {
  jsonCallbackReceiver : QObjectPtr;
  jsonCallbackMethod : string;
  errorCallbackReceiver : QObjectPtr;
  errorCallbackMethod : string
}.

(** Modelled from the spec: the default-constructed parameters, which
    [QMap::value] returns for a reply without an entry, name no receiver
    ("absence of a registered callback is logged only"). *)
Definition JSONCallbackParameters_default : JSONCallbackParameters :=
  mkJSONCallbackParameters None "" None "".

(** Modelled from the spec: JSONCallbackParameters::isEmpty is declared in
    AccountManager.h, which is not part of the sources at hand. A callback
    spec is a success and an error "receiver+method name" pair; it is empty
    when it names neither receiver. *)
Definition isEmpty (p : JSONCallbackParameters) : bool :=
  bool_decide (jsonCallbackReceiver p = None) && bool_decide (errorCallbackReceiver p = None).

(** A finished [QNetworkReply], as the slots see it through [sender()]: its
    address, [url()], the object of [QJsonDocument::fromJson(readAll())]
    (empty when the body is not a JSON object) and [errorString()]. *)
Record QNetworkReply : Type := mkQNetworkReply {
  reply_ptr : positive;
  reply_url : QUrl;
  reply_json : gmap string QJsonValue;
  reply_errorString : string
}.

(** One call of [QNetworkAccessManager::get] or [post]. *)
Record Dispatched : Type := mkDispatched {
  sent_operation : Operation;
  sent_request : QNetworkRequest;
  sent_data : string;
  sent_reply : positive
}.

(** The network access manager: the calls made so far, oldest first, and the
    address of the reply object the next call allocates. Replies are never
    deleted, so addresses are not reused. *)
Record QNetworkAccessManager : Type := mkQNetworkAccessManager {
  dispatched : list Dispatched;
  nextReply : positive
}.

(** The members of AccountManager. *)
Record AccountManager : Type := mkAccountManager {
  _rootURL : QUrl;
  _username : string;
  _networkAccessManager : QNetworkAccessManager;
  _pendingCallbackMap : gmap positive JSONCallbackParameters;
  _accounts : gmap QUrl DataServerAccountInfo
}.

(** The signals of a reply and the slots of AccountManager connected to them. *)
Inductive ReplySignal : Type :=
| SigFinished
| SigError.

#[export] Instance ReplySignal_eq_dec : EqDecision ReplySignal.
Proof. solve_decision. Defined.

Inductive Slot : Type :=
| SlotPassSuccessToCallback
| SlotPassErrorToCallback
| SlotRequestFinished
| SlotRequestError.

(** The signals AccountManager emits. *)
Inductive Emitted : Type :=
| authenticationRequired
| receivedAccessToken (rootURL : QUrl).

(** A [QMetaObject::invokeMethod] on a callback receiver. What the receiver
    does in turn is outside this file. *)
Inductive Invocation : Type :=
| InvokeJson (receiver : positive) (method : string) (arg : gmap string QJsonValue)
| InvokeError (receiver : positive) (method : string) (errorCode : Z) (errorString : string).

(** One item streamed into [qDebug()]. *)
Inductive DebugItem : Type :=
| DText (s : string)
| DJson (o : gmap string QJsonValue)
| DErrorCode (errorCode : Z).

(** Everything a member function can read or change: the object itself, the
    clock, the settings store (by group and key), the reply connections, and
    the traces of emitted signals, callback invocations and debug lines
    (oldest first). *)
Record World : Type := mkWorld {
  self : AccountManager;
  clock : Z;
  settings : gmap (string * string) DataServerAccountInfo;
  connections : list (positive * ReplySignal * Slot);
  emitted : list Emitted;
  invoked : list Invocation;
  debug : list (list DebugItem)
}.

(** *** The state monad of member functions *)

Definition M (A : Type) : Type := World -> A * World.

Definition ret {A} (a : A) : M A := fun w => (a, w).

Definition bind {A B} (c : M A) (k : A -> M B) : M B :=
  fun w => let (a, w') := c w in k a w'.

Declare Scope am_scope.
Delimit Scope am_scope with am.

Notation "'let*' x := c 'in' k" := (bind c (fun x => k))
  (at level 10, x name, c at level 100, k at level 200) : am_scope.
Notation "c ;; k" := (bind c (fun _ => k))
  (at level 100, k at level 200, right associativity) : am_scope.

Local Open Scope am_scope.

Definition this : M AccountManager := fun w => (self w, w).

Definition currentTime : M Z := fun w => (clock w, w).

Definition update (f : AccountManager -> AccountManager) : M unit :=
  fun w => (tt, mkWorld (f (self w)) (clock w) (settings w) (connections w)
                        (emitted w) (invoked w) (debug w)).

Definition qDebug (line : list DebugItem) : M unit :=
  fun w => (tt, mkWorld (self w) (clock w) (settings w) (connections w)
                        (emitted w) (invoked w) (debug w ++ [line])).

Definition emit (s : Emitted) : M unit :=
  fun w => (tt, mkWorld (self w) (clock w) (settings w) (connections w)
                        (emitted w ++ [s]) (invoked w) (debug w)).

Definition invokeMethod (i : Invocation) : M unit :=
  fun w => (tt, mkWorld (self w) (clock w) (settings w) (connections w)
                        (emitted w) (invoked w ++ [i]) (debug w)).

Definition connect (sender : positive) (sig : ReplySignal) (slot : Slot) : M unit :=
  fun w => (tt, mkWorld (self w) (clock w) (settings w)
                        (connections w ++ [(sender, sig, slot)])
                        (emitted w) (invoked w) (debug w)).

(** [QSettings s; s.beginGroup(group); s.setValue(key, value)]. *)
Definition settings_setValue (group key : string) (value : DataServerAccountInfo) : M unit :=
  fun w => (tt, mkWorld (self w) (clock w) (<[(group, key) := value]> (settings w))
                        (connections w) (emitted w) (invoked w) (debug w)).

(** [_networkAccessManager.get(request)] and [.post(request, data)]: the
    call is recorded and a new reply object is returned. *)
Definition send (op : Operation) (request : QNetworkRequest) (data : string) : M positive :=
  let* am := this in
  let nam := _networkAccessManager am in
  let reply := nextReply nam in
  update (fun am =>
    mkAccountManager (_rootURL am) (_username am)
      (mkQNetworkAccessManager
         (dispatched nam ++ [mkDispatched op request data reply])
         (Pos.succ reply))
      (_pendingCallbackMap am) (_accounts am)) ;;
  ret reply.

Definition set_rootURL (u : QUrl) (am : AccountManager) : AccountManager :=
  mkAccountManager u (_username am) (_networkAccessManager am)
    (_pendingCallbackMap am) (_accounts am).

Definition set_username (n : string) (am : AccountManager) : AccountManager :=
  mkAccountManager (_rootURL am) n (_networkAccessManager am)
    (_pendingCallbackMap am) (_accounts am).

Definition set_pendingCallbackMap (m : gmap positive JSONCallbackParameters)
    (am : AccountManager) : AccountManager :=
  mkAccountManager (_rootURL am) (_username am) (_networkAccessManager am)
    m (_accounts am).

Definition set_accounts (m : gmap QUrl DataServerAccountInfo)
    (am : AccountManager) : AccountManager :=
  mkAccountManager (_rootURL am) (_username am) (_networkAccessManager am)
    (_pendingCallbackMap am) m.

Definition ACCOUNTS_GROUP : string := "accounts".

(** *** Member functions *)

Definition setRootURL (rootURL : QUrl) : M unit :=
  let* am := this in
  if bool_decide (_rootURL am ≠ rootURL) then
    update (set_rootURL rootURL) ;;
    update (set_username "") ;;
    qDebug [DText "URL for node authentication has been changed to";
            DText (QUrl_toString rootURL)] ;;
    qDebug [DText "Re-setting authentication flow."]
  else ret tt.

Definition hasValidAccessToken : M bool :=
  let* am := this in
  let* now := currentTime in
  let accountInfo := default DataServerAccountInfo_default (_accounts am !! _rootURL am) in
  if bool_decide (token (getAccessToken accountInfo) = "")
     || isExpired now (getAccessToken accountInfo)
  then
    qDebug [DText "An access token is required for requests to";
            DText (QUrl_toString (_rootURL am))] ;;
    ret false
  else ret true.

Definition checkAndSignalForAccessToken : M bool :=
  let* hasToken := hasValidAccessToken in
  (if negb hasToken then emit authenticationRequired else ret tt) ;;
  ret hasToken.

Definition invokedRequest (path : string) (operation : Operation)
    (callbackParams : JSONCallbackParameters) (dataByteArray : string) : M unit :=
  let* valid := hasValidAccessToken in
  if valid then
    let authenticatedRequest := QNetworkRequest_new in
    let* am := this in
    let requestURL := _rootURL am in
    let requestURL := setPath path requestURL in
    let requestURL :=
      setQuery ("access_token=" +:+
                token (getAccessToken
                         (default DataServerAccountInfo_default
                                  (_accounts am !! _rootURL am))))
               requestURL in
    let authenticatedRequest := setUrl requestURL authenticatedRequest in
    qDebug [DText "Making an authenticated request to";
            DText (QUrl_toString requestURL)] ;;
    let* networkReply :=
      match operation with
      | GetOperation =>
          let* r := send GetOperation authenticatedRequest "" in ret (Some r)
      | PostOperation =>
          let authenticatedRequest :=
            setHeader ContentTypeHeader "application/x-www-form-urlencoded"
                      authenticatedRequest in
          let* r := send PostOperation authenticatedRequest dataByteArray in
          ret (Some r)
      | _ => ret None
      end in
    match networkReply with
    | Some reply =>
        (if negb (isEmpty callbackParams) then
           update (fun am =>
             set_pendingCallbackMap
               (<[reply := callbackParams]> (_pendingCallbackMap am)) am)
         else ret tt) ;;
        connect reply SigFinished SlotPassSuccessToCallback ;;
        connect reply SigError SlotPassErrorToCallback
    | None => ret tt
    end
  else ret tt.

(** [QMetaObject::invokeMethod(this, "invokedRequest", ...)]: the slot runs
    with the arguments given. *)
Definition authenticatedRequest (path : string) (operation : Operation)
    (callbackParams : JSONCallbackParameters) (dataByteArray : string) : M unit :=
  invokedRequest path operation callbackParams dataByteArray.

Definition passSuccessToCallback (requestReply : QNetworkReply) : M unit :=
  let jsonResponse := reply_json requestReply in
  let* am := this in
  let callbackParams :=
    default JSONCallbackParameters_default
            (_pendingCallbackMap am !! reply_ptr requestReply) in
  match jsonCallbackReceiver callbackParams with
  | Some receiver =>
      invokeMethod (InvokeJson receiver (jsonCallbackMethod callbackParams) jsonResponse) ;;
      update (fun am =>
        set_pendingCallbackMap
          (delete (reply_ptr requestReply) (_pendingCallbackMap am)) am)
  | None =>
      qDebug [DText "Received JSON response from data-server that has no matching callback."] ;;
      qDebug [DJson jsonResponse]
  end.

Definition passErrorToCallback (requestReply : QNetworkReply) (errorCode : Z) : M unit :=
  let* am := this in
  let callbackParams :=
    default JSONCallbackParameters_default
            (_pendingCallbackMap am !! reply_ptr requestReply) in
  match errorCallbackReceiver callbackParams with
  | Some receiver =>
      invokeMethod (InvokeError receiver (errorCallbackMethod callbackParams)
                                errorCode (reply_errorString requestReply)) ;;
      update (fun am =>
        set_pendingCallbackMap
          (delete (reply_ptr requestReply) (_pendingCallbackMap am)) am)
  | None =>
      qDebug [DText "Received error response from data-server that has no matching callback."] ;;
      qDebug [DText "Error"; DErrorCode errorCode; DText "-";
              DText (reply_errorString requestReply)]
  end.

Definition requestAccessToken (login password : string) : M unit :=
  let request := QNetworkRequest_new in
  let* am := this in
  let grantURL := _rootURL am in
  let grantURL := setPath "/oauth/token" grantURL in
  let postData := "" in
  let postData := postData +:+ "grant_type=password&" in
  let postData := postData +:+ ("username=" +:+ login +:+ "&") in
  let postData := postData +:+ ("password=" +:+ password) in
  let request := setUrl grantURL request in
  let request := setHeader ContentTypeHeader "application/x-www-form-urlencoded" request in
  let* requestReply := send PostOperation request postData in
  connect requestReply SigFinished SlotRequestFinished ;;
  connect requestReply SigError SlotRequestError.

Definition requestFinished (requestReply : QNetworkReply) : M unit :=
  let rootObject := reply_json requestReply in
  if negb (QJsonObject_contains rootObject "error") then
    if negb (QJsonObject_contains rootObject "access_token")
       || negb (QJsonObject_contains rootObject "expires_in")
       || negb (QJsonObject_contains rootObject "token_type")
    then
      qDebug [DText "Received a response for password grant that is missing one or more expected values."]
    else
      let rootURL := reply_url requestReply in
      let rootURL := setPath "" rootURL in
      qDebug [DText "Storing an account with access-token for";
              DText (QUrl_toString rootURL)] ;;
      let* now := currentTime in
      let freshAccountInfo := DataServerAccountInfo_fromJson now rootObject in
      update (fun am => set_accounts (<[rootURL := freshAccountInfo]> (_accounts am)) am) ;;
      emit (receivedAccessToken rootURL) ;;
      settings_setValue ACCOUNTS_GROUP
        (replace "//" "slashslash" (QUrl_toString rootURL)) freshAccountInfo
  else
    qDebug [DText "Error in response for password grant -";
            DText (QJsonValue_toString (QJsonObject_index rootObject "error_description"))].

Definition requestError (error : Z) : M unit :=
  qDebug [DText "AccountManager requestError - "; DErrorCode error].

(** *** Signal delivery *)

Definition runSlot (slot : Slot) (reply : QNetworkReply) (errorCode : Z) : M unit :=
  match slot with
  | SlotPassSuccessToCallback => passSuccessToCallback reply
  | SlotPassErrorToCallback => passErrorToCallback reply errorCode
  | SlotRequestFinished => requestFinished reply
  | SlotRequestError => requestError errorCode
  end.

Fixpoint runSlots (slots : list Slot) (reply : QNetworkReply) (errorCode : Z) : M unit :=
  match slots with
  | [] => ret tt
  | s :: rest => runSlot s reply errorCode ;; runSlots rest reply errorCode
  end.

Definition connectedSlots (sender : positive) (sig : ReplySignal)
    (cs : list (positive * ReplySignal * Slot)) : list Slot :=
  omap (fun c : positive * ReplySignal * Slot =>
          let '(p, s, slot) := c in
          if bool_decide (p = sender) && bool_decide (s = sig) then Some slot else None)
       cs.

(** The reply at [reply_ptr reply] emits [sig]: the slots connected to it run
    in the order they were connected. *)
Definition deliver (sig : ReplySignal) (reply : QNetworkReply) (errorCode : Z) : M unit :=
  fun w => runSlots (connectedSlots (reply_ptr reply) sig (connections w)) reply errorCode w.

(** *** Construction *)

(** Whether a slash occurs somewhere in [s]. *)
Fixpoint has_slash (s : string) : bool :=
  match s with
  | EmptyString => false
  | String _ r => String.prefix "/" s || has_slash r
  end.

(** Whether two slashes follow each other somewhere in [s]. *)
Fixpoint has_double_slash (s : string) : bool :=
  match s with
  | EmptyString => false
  | String _ r => String.prefix "//" s || has_double_slash r
  end.

(** [settings.value(key).value<DataServerAccountInfo>()] inside the group
    "accounts": the stored value, a default-constructed one if there is none. *)
Definition storedValue (stored : gmap (string * string) DataServerAccountInfo)
    (key : string) : DataServerAccountInfo :=
  default DataServerAccountInfo_default (stored !! (ACCOUNTS_GROUP, key)).

Section Constructor.

(** [QUrl(const QString&)], Qt's URL parser. *)
Variable QUrl_fromString : string -> QUrl.

(** The URL a settings key stands for: [QUrl keyURL(keyCopy.replace("slashslash", "//"))]. *)
Definition keyURL (key : string) : QUrl :=
  let keyCopy := key in
  QUrl_fromString (replace "slashslash" "//" keyCopy).

(** The [foreach] loop of the constructor over [keys], the list
    [settings.allKeys()] gives inside the group "accounts": each key's
    value is inserted under the key's URL, later keys replacing earlier
    ones. *)
Definition loadAccounts (stored : gmap (string * string) DataServerAccountInfo)
    (keys : list string) : gmap QUrl DataServerAccountInfo :=
  foldl (fun accounts key => <[keyURL key := storedValue stored key]> accounts) ∅ keys.

(** [AccountManager::AccountManager()], run at time [now] over the settings
    [stored] whose group "accounts" lists [keys]: empty members, the accounts
    loaded, one debug line per key. The reply addresses of the new network
    access manager start at 1. *)
Definition construct (now : Z) (stored : gmap (string * string) DataServerAccountInfo)
    (keys : list string) : World :=
  mkWorld
    (mkAccountManager QUrl_empty "" (mkQNetworkAccessManager [] 1%positive) ∅
                      (loadAccounts stored keys))
    now stored [] [] []
    ((fun key => [DText "Found a data-server access token for";
                  DText (QUrl_toString (keyURL key))]) <$> keys).

End Constructor.

(** *** Reply addresses *)

(** [r] is the address of a reply the network access manager has handed out. *)
Definition allocated (w : World) (r : positive) : Prop :=
  (r < nextReply (_networkAccessManager (self w)))%positive.

(** Pending callbacks, connections and recorded requests only mention
    replies that were handed out. *)
Definition replies_allocated (w : World) : Prop :=
  (forall r, is_Some (_pendingCallbackMap (self w) !! r) -> allocated w r) /\
  (forall r sig slot, (r, sig, slot) ∈ connections w -> allocated w r) /\
  (forall d, d ∈ dispatched (_networkAccessManager (self w)) -> allocated w (sent_reply d)).

(** What running a slot can do to the bookkeeping of replies: [w'] has the
    network access manager and the connections of [w], and its pending
    callbacks are among those of [w]. *)
Definition slot_frame (w w' : World) : Prop :=
  _networkAccessManager (self w') = _networkAccessManager (self w) /\
  connections w' = connections w /\
  _pendingCallbackMap (self w') ⊆ _pendingCallbackMap (self w).

(** Whether an account entry is usable at time [now]: the test of
    [hasValidAccessToken] on the entry it looked up. *)
Definition usable (now : Z) (entry : option DataServerAccountInfo) : bool :=
  match entry with
  | Some info =>
      negb (bool_decide (token (getAccessToken info) = ""))
      && negb (isExpired now (getAccessToken info))
  | None => false
  end.

(** *** Frames and sample worlds *)

(** [w'] differs from [w] at most in the debug output. *)
Definition only_logged (w w' : World) : Prop :=
  self w' = self w /\ clock w' = clock w /\ settings w' = settings w /\
  connections w' = connections w /\ emitted w' = emitted w /\ invoked w' = invoked w.

(** The entry of the current root URL, if any. *)
Definition currentAccount (w : World) : option DataServerAccountInfo :=
  _accounts (self w) !! _rootURL (self w).

Definition sampleURL : QUrl := mkQUrl "https" "data.example.org" "" None None.

Definition sampleToken : DataServerAccountInfo :=
  mkDataServerAccountInfo (mkOAuthAccessToken "abc" "bearer" 3600).

Definition emptyManager (root : QUrl) : AccountManager :=
  mkAccountManager root "" (mkQNetworkAccessManager [] 1%positive) ∅ ∅.

(** A world at time [now] whose manager has [root] as root URL, [name] as
    user name and [accounts] as accounts. *)
Definition worldAt (now : Z) (root : QUrl) (name : string)
    (accounts : gmap QUrl DataServerAccountInfo) : World :=
  mkWorld (set_accounts accounts (set_username name (emptyManager root)))
          now ∅ [] [] [] [].

(** Logged in at [sampleURL] with a token that expires at 3600; the time is 10. *)
Definition loggedIn : World :=
  worldAt 10 sampleURL "alice" {[ sampleURL := sampleToken ]}.

(** The same, but the time is 3600: the token has expired. *)
Definition expired : World :=
  worldAt 3600 sampleURL "alice" {[ sampleURL := sampleToken ]}.

(** Never logged in. *)
Definition loggedOut : World := worldAt 10 sampleURL "" ∅.

Definition tokenResponse : QNetworkReply :=
  mkQNetworkReply 1%positive
    (mkQUrl "https" "data.example.org" "/oauth/token" None None)
    (<["access_token" := JString "abc"]>
       (<["token_type" := JString "bearer"]>
          (<["expires_in" := JNumber 3600]> ∅)))
    "".

Definition errorResponse : QNetworkReply :=
  mkQNetworkReply 1%positive
    (mkQUrl "https" "data.example.org" "/oauth/token" None None)
    (<["error" := JString "invalid_grant"]>
       (<["error_description" := JString "bad password"]> ∅))
    "".

(** A callback spec that names a receiver for errors only. *)
Definition errorOnlyCallback : JSONCallbackParameters :=
  mkJSONCallbackParameters None "" (Some 7%positive) "handleError".

(** A callback spec that names both receivers. *)
Definition bothCallbacks : JSONCallbackParameters :=
  mkJSONCallbackParameters (Some 7%positive) "handleJson" (Some 7%positive) "handleError".

End AccountManager.

(** * Properties *)

(** ** Node permissions *)

Module NodePermissionsSpec.
Import Qt NodePermissions.

Example toVariant_named :
  toMap (toVariant (named "anonymous")) !! "id_can_connect" = Some (QBool true).
Proof. reflexivity. Qed.

Example toBool_of_text : toBool (QStr "False") = false /\ toBool (QStr "yes") = true.
Proof. split; reflexivity. Qed.

(** The keys [toVariant] writes are read back by [fromMap] one by one. *)
Lemma index_toVariant (p : NodePermissions) :
  let m := toMap (toVariant p) in
  index m "permissions_id" = QStr (_id p) /\
  index m "id_can_connect" = QBool (canConnectToDomain p) /\
  index m "id_can_adjust_locks" = QBool (canAdjustLocks p) /\
  index m "id_can_rez" = QBool (canRezPermanentEntities p) /\
  index m "id_can_rez_tmp" = QBool (canRezTemporaryEntities p) /\
  index m "id_can_write_to_asset_server" = QBool (canWriteToAssetServer p) /\
  index m "id_can_connect_past_max_capacity" = QBool (canConnectPastMaxCapacity p).
Proof.
  unfold index, toVariant, toMap; cbn zeta.
  repeat split; by simplify_map_eq.
Qed.

(** C5: after [a |= b] every capability flag of [a] is the logical OR of the
    flags of the original [a] and of [b], and the identifier of [a] is the one
    it had. *)
Theorem or_assign_flags_and_id (a b : NodePermissions) :
  canConnectToDomain (or_assign a b) = canConnectToDomain a || canConnectToDomain b /\
  canAdjustLocks (or_assign a b) = canAdjustLocks a || canAdjustLocks b /\
  canRezPermanentEntities (or_assign a b)
    = canRezPermanentEntities a || canRezPermanentEntities b /\
  canRezTemporaryEntities (or_assign a b)
    = canRezTemporaryEntities a || canRezTemporaryEntities b /\
  canWriteToAssetServer (or_assign a b) = canWriteToAssetServer a || canWriteToAssetServer b /\
  canConnectPastMaxCapacity (or_assign a b)
    = canConnectPastMaxCapacity a || canConnectPastMaxCapacity b /\
  getID (or_assign a b) = getID a.
Proof. repeat split. Qed.

(** C9: building a NodePermissions from the map that [toVariant] produces
    gives back the identifier and the six flags: the value itself. *)
Theorem fromMap_toVariant (p : NodePermissions) :
  fromMap (toMap (toVariant p)) = p /\
  getID (fromMap (toMap (toVariant p))) = getID p /\
  flags (fromMap (toMap (toVariant p))) = flags p.
Proof.
  assert (E : fromMap (toMap (toVariant p)) = p).
  { destruct (index_toVariant p) as (Hid & H1 & H2 & H3 & H4 & H5 & H6).
    cbv zeta in *. unfold fromMap.
    rewrite Hid, H1, H2, H3, H4, H5, H6. by destruct p. }
  by rewrite E.
Qed.

(** C10: a NodePermissions made by the default (fresh identifier) or the
    named constructor permits connecting to the domain and nothing else, and
    so does DEFAULT_AGENT_PERMISSIONS. *)
Theorem constructed_flags (uuid name : string) :
  flags (fresh uuid) = [true; false; false; false; false; false] /\
  flags (named name) = [true; false; false; false; false; false] /\
  flags (DEFAULT_AGENT_PERMISSIONS uuid) = [true; false; false; false; false; false] /\
  canConnectToDomain (DEFAULT_AGENT_PERMISSIONS uuid) = true.
Proof. repeat split. Qed.

End NodePermissionsSpec.

(** ** Account manager *)

Module AccountManagerSpec.
Import Stdlib.Strings.Ascii.
Import Qt AccountManager.

Example replace_root : replace "//" "slashslash" "https://data.example.org"
                       = "https:slashslashdata.example.org".
Proof. reflexivity. Qed.

Example replace_no_overlap : replace "//" "slashslash" "a///b" = "aslashslash/b".
Proof. reflexivity. Qed.

Example sampleURL_toString : QUrl_toString sampleURL = "https://data.example.org".
Proof. reflexivity. Qed.

Example loggedIn_valid : fst (hasValidAccessToken loggedIn) = true.
Proof. reflexivity. Qed.

Example expired_invalid : fst (hasValidAccessToken expired) = false.
Proof. reflexivity. Qed.

(** What [hasValidAccessToken] computes, as a function of the entry looked up. *)
Lemma hasValidAccessToken_value (w : World) :
  fst (hasValidAccessToken w) =
  match currentAccount w with
  | Some info =>
      negb (bool_decide (token (getAccessToken info) = ""))
      && negb (isExpired (clock w) (getAccessToken info))
  | None => false
  end.
Proof.
  unfold hasValidAccessToken, currentAccount, bind, this, currentTime. cbn.
  destruct (_accounts (self w) !! _rootURL (self w)) as [info|]; cbn.
  - destruct (bool_decide (token (getAccessToken info) = "")); cbn; [done|].
    by destruct (isExpired (clock w) (getAccessToken info)).
  - done.
Qed.

(** [hasValidAccessToken] changes nothing but the debug output. *)
Lemma hasValidAccessToken_frame (w : World) :
  only_logged w (snd (hasValidAccessToken w)).
Proof.
  unfold hasValidAccessToken, bind, this, currentTime. cbn.
  destruct (_ || _); cbn; by repeat split.
Qed.

(** When the token is valid, even the debug output is left alone. *)
Lemma hasValidAccessToken_true (w : World) :
  fst (hasValidAccessToken w) = true -> snd (hasValidAccessToken w) = w.
Proof.
  unfold hasValidAccessToken, bind, this, currentTime. cbn.
  destruct (_ || _); cbn; [done|]. by destruct w.
Qed.

(** A token is expired from its expiry time on. *)
Lemma isExpired_after_expiry (now : Z) (t : OAuthAccessToken) :
  (expiryTimestamp t <= now)%Z -> isExpired now t = true.
Proof. intros H. unfold isExpired. by apply Z.leb_le. Qed.

(** C2: [hasValidAccessToken] returns true exactly when the accounts map has
    an entry for the current root URL whose token is non-empty and not
    expired; it returns false when there is no entry for the current root
    URL, and false when the stored token is expired. *)
Theorem hasValidAccessToken_iff (w : World) :
  (fst (hasValidAccessToken w) = true <->
   exists info, _accounts (self w) !! _rootURL (self w) = Some info /\
                token (getAccessToken info) <> "" /\
                isExpired (clock w) (getAccessToken info) = false) /\
  (_accounts (self w) !! _rootURL (self w) = None ->
   fst (hasValidAccessToken w) = false) /\
  (forall info, _accounts (self w) !! _rootURL (self w) = Some info ->
                isExpired (clock w) (getAccessToken info) = true ->
                fst (hasValidAccessToken w) = false).
Proof.
  rewrite hasValidAccessToken_value. unfold currentAccount.
  destruct (_accounts (self w) !! _rootURL (self w)) as [info|] eqn:E.
  - split; [split|split].
    + intros H. apply andb_true_iff in H as [Ht He].
      exists info. split; [done|]. split.
      * apply negb_true_iff, bool_decide_eq_false in Ht. exact Ht.
      * by apply negb_true_iff in He.
    + intros (info' & [= <-] & Ht & He).
      apply andb_true_iff. split.
      * by apply negb_true_iff, bool_decide_eq_false.
      * by rewrite He.
    + done.
    + intros info' [= <-] Hexp.
      apply andb_false_iff. right. by rewrite Hexp.
  - split; [split|split]; try done.
    intros (info & ? & _); done.
Qed.

(** C7: [setRootURL u] empties the user name when [u] is not the current
    root URL and changes nothing at all when it is; the root URL is [u]
    afterwards. *)
Theorem setRootURL_username (w : World) (u : QUrl) :
  let w' := snd (setRootURL u w) in
  _rootURL (self w') = u /\
  (u <> _rootURL (self w) ->
     _username (self w') = "" /\
     _networkAccessManager (self w') = _networkAccessManager (self w) /\
     _pendingCallbackMap (self w') = _pendingCallbackMap (self w) /\
     _accounts (self w') = _accounts (self w)) /\
  (u = _rootURL (self w) -> w' = w).
Proof.
  unfold setRootURL, bind, this. cbn.
  destruct (decide (_rootURL (self w) = u)) as [E|N].
  - rewrite bool_decide_eq_false_2 by (intros H; by apply H).
    cbn. by repeat split.
  - rewrite bool_decide_eq_true_2 by done. cbn.
    split; [done|]. split; [done|]. intros ->. done.
Qed.

(** C3: without a valid access token [authenticatedRequest] sends nothing,
    registers no callback, and leaves the object (accounts and pending
    callbacks included), the connections, the settings and the emitted
    signals as they were. *)
Theorem authenticatedRequest_without_token (w : World) (path : string) (operation : Operation)
    (callbackParams : JSONCallbackParameters) (dataByteArray : string) :
  fst (hasValidAccessToken w) = false ->
  let w' := snd (authenticatedRequest path operation callbackParams dataByteArray w) in
  w' = snd (invokedRequest path operation callbackParams dataByteArray w) /\
  dispatched (_networkAccessManager (self w')) = dispatched (_networkAccessManager (self w)) /\
  _pendingCallbackMap (self w') = _pendingCallbackMap (self w) /\
  _accounts (self w') = _accounts (self w) /\
  only_logged w w'.
Proof.
  intros Hno. unfold authenticatedRequest, invokedRequest, bind.
  pose proof (hasValidAccessToken_frame w) as Hf.
  destruct (hasValidAccessToken w) as [valid w1]. cbn in Hno, Hf. subst valid. cbn.
  destruct Hf as (Hs & Hc & Hse & Hco & He & Hi). rewrite Hs.
  repeat split; assumption.
Qed.

(** C8: with a valid access token, a GET or POST [invokedRequest] hands the
    network access manager one request; its URL is the root URL with the path
    replaced by [path] and the query [access_token=<token of the current root
    URL>]; the token is in no header (no raw header is set, and the only known
    header ever set is the content type). *)
Theorem invokedRequest_token_in_query (w : World) (path : string) (operation : Operation)
    (callbackParams : JSONCallbackParameters) (dataByteArray : string) :
  fst (hasValidAccessToken w) = true ->
  operation = GetOperation \/ operation = PostOperation ->
  let w' := snd (invokedRequest path operation callbackParams dataByteArray w) in
  exists info d,
    _accounts (self w) !! _rootURL (self w) = Some info /\
    dispatched (_networkAccessManager (self w'))
      = (dispatched (_networkAccessManager (self w)) ++ [d])%list /\
    sent_operation d = operation /\
    req_url (sent_request d)
      = setQuery ("access_token=" +:+ token (getAccessToken info))
                 (setPath path (_rootURL (self w))) /\
    url_scheme (req_url (sent_request d)) = url_scheme (_rootURL (self w)) /\
    url_authority (req_url (sent_request d)) = url_authority (_rootURL (self w)) /\
    url_path (req_url (sent_request d)) = path /\
    url_query (req_url (sent_request d))
      = Some ("access_token=" +:+ token (getAccessToken info)) /\
    req_rawHeaders (sent_request d) = [] /\
    (forall h v, (h, v) ∈ req_headers (sent_request d) -> h = ContentTypeHeader).
Proof.
  intros Hyes Hop.
  pose proof (hasValidAccessToken_true w Hyes) as Hw.
  pose proof (hasValidAccessToken_value w) as Hv. rewrite Hyes in Hv.
  unfold currentAccount in Hv.
  destruct (_accounts (self w) !! _rootURL (self w)) as [info|] eqn:E; [|done].
  exists info.
  unfold invokedRequest, bind.
  destruct (hasValidAccessToken w) as [valid w1]. cbn in Hyes, Hw. subst valid w1.
  unfold this. cbn. rewrite E. cbn.
  destruct Hop as [-> | ->]; destruct (isEmpty callbackParams); cbn;
    (eexists; split; [done|]; split; [reflexivity|]; cbn; repeat split;
     intros h v Hin;
     first [ by apply elem_of_nil in Hin
           | apply list_elem_of_singleton in Hin; by inversion Hin ]).
Qed.

Example tokenResponse_stored :
  _accounts (self (snd (requestFinished tokenResponse loggedOut))) !! sampleURL
  = Some (mkDataServerAccountInfo (mkOAuthAccessToken "abc" "bearer" 3610)).
Proof. reflexivity. Qed.

Example errorResponse_dropped :
  _accounts (self (snd (requestFinished errorResponse loggedOut))) = ∅.
Proof. reflexivity. Qed.

(** *** The settings key of a root URL *)

(** Appending strings is associative. *)
Lemma append_assoc (s1 s2 s3 : string) : (s1 +:+ s2) +:+ s3 = s1 +:+ (s2 +:+ s3).
Proof.
  induction s1 as [|c s1 IH]; [done|].
  change (String c ((s1 +:+ s2) +:+ s3) = String c (s1 +:+ (s2 +:+ s3))).
  by f_equal.
Qed.

Lemma append_empty_r (s : string) : s +:+ "" = s.
Proof.
  induction s as [|c s IH]; [done|].
  change (String c (s +:+ "") = String c s). by f_equal.
Qed.

(** A text that does not start with a slash does not start with two. *)
Lemma prefix_one_of_two (c : Ascii.ascii) (r : string) :
  String.prefix "/" (String c r) = false -> String.prefix "//" (String c r) = false.
Proof.
  change (String.prefix "/" (String c r))
    with (if Ascii.ascii_dec "/" c then String.prefix "" r else false).
  change (String.prefix "//" (String c r))
    with (if Ascii.ascii_dec "/" c then String.prefix "/" r else false).
  destruct (Ascii.ascii_dec "/" c); [|done]. by destruct r.
Qed.

(** Replacing "//" leaves a text without slashes as it is, and starts after
    such a text when more follows. *)
Lemma replace_from_app_no_slash (s1 s2 : string) :
  has_slash s1 = false ->
  replace_from 0 "//" "slashslash" (s1 +:+ s2)
  = s1 +:+ replace_from 0 "//" "slashslash" s2.
Proof.
  induction s1 as [|c r IH]; [done|].
  cbn [has_slash]. intros H. apply orb_false_iff in H as [Hc Hr].
  change (String c r +:+ s2) with (String c (r +:+ s2)).
  cbn [replace_from].
  rewrite prefix_one_of_two.
  - change (String c r +:+ replace_from 0 "//" "slashslash" s2)
      with (String c (r +:+ replace_from 0 "//" "slashslash" s2)).
    f_equal. by apply IH.
  - revert Hc.
    change (String.prefix "/" (String c r))
      with (if Ascii.ascii_dec "/" c then String.prefix "" r else false).
    change (String.prefix "/" (String c (r +:+ s2)))
      with (if Ascii.ascii_dec "/" c then String.prefix "" (r +:+ s2) else false).
    destruct (Ascii.ascii_dec "/" c); [|done]. by destruct r.
Qed.

Lemma replace_from_no_slash (s : string) :
  has_slash s = false -> replace_from 0 "//" "slashslash" s = s.
Proof.
  intros H. rewrite <- (append_empty_r s) at 1.
  rewrite replace_from_app_no_slash by done. apply append_empty_r.
Qed.

(** The separator of scheme and authority becomes ":slashslash". *)
Lemma replace_from_separator (s : string) :
  has_slash s = false ->
  replace_from 0 "//" "slashslash" (":" +:+ "//" +:+ s) = ":slashslash" +:+ s.
Proof.
  intros H. transitivity (":slashslash" +:+ replace_from 0 "//" "slashslash" s).
  - destruct s; reflexivity.
  - by rewrite replace_from_no_slash.
Qed.

(** The settings key of a URL that consists of a scheme and an authority
    without slashes: the scheme, ":slashslash", the authority. *)
Lemma settings_key_of_root (u : QUrl) :
  url_scheme u <> "" -> url_authority u <> "" ->
  has_slash (url_scheme u) = false -> has_slash (url_authority u) = false ->
  url_query u = None -> url_fragment u = None ->
  replace "//" "slashslash" (QUrl_toString (setPath "" u))
  = url_scheme u +:+ ":slashslash" +:+ url_authority u.
Proof.
  destruct u as [sch auth pth qry frg]. cbn. intros Hs Ha Hss Has -> ->.
  unfold QUrl_toString, setPath, replace. cbn.
  rewrite !bool_decide_eq_false_2 by done.
  rewrite append_assoc.
  change (sch +:+ ":" +:+ ("//" +:+ auth) +:+ "" +:+ "" +:+ "")
    with (sch +:+ ":" +:+ "//" +:+ (auth +:+ "")).
  rewrite append_empty_r, replace_from_app_no_slash by done.
  by rewrite replace_from_separator.
Qed.

Example settings_key_of_sampleURL :
  replace "//" "slashslash" (QUrl_toString (setPath "" (reply_url tokenResponse)))
  = "https:slashslashdata.example.org".
Proof. reflexivity. Qed.

(** C1: a token response with [access_token], [expires_in] and [token_type]
    and without [error] makes [requestFinished] insert one entry into the
    accounts map, under the response's URL with the path emptied (all other
    keys keep what they had), emit one [receivedAccessToken], and write the
    entry to the settings group "accounts" under the root URL's string with
    "//" replaced by "slashslash": for a response URL made of a scheme and an
    authority (and any path) the key is the scheme, ":slashslash" and the
    authority. *)
Theorem requestFinished_stores_token (w : World) (requestReply : QNetworkReply) :
  is_Some (reply_json requestReply !! "access_token") ->
  is_Some (reply_json requestReply !! "expires_in") ->
  is_Some (reply_json requestReply !! "token_type") ->
  reply_json requestReply !! "error" = None ->
  let w' := snd (requestFinished requestReply w) in
  let rootURL := setPath "" (reply_url requestReply) in
  let info := DataServerAccountInfo_fromJson (clock w) (reply_json requestReply) in
  _accounts (self w') = <[rootURL := info]> (_accounts (self w)) /\
  _accounts (self w') !! rootURL = Some info /\
  (forall u, u <> rootURL -> _accounts (self w') !! u = _accounts (self w) !! u) /\
  emitted w' = (emitted w ++ [receivedAccessToken rootURL])%list /\
  settings w'
    = <[("accounts", replace "//" "slashslash" (QUrl_toString rootURL)) := info]>
        (settings w) /\
  (url_scheme (reply_url requestReply) <> "" ->
   url_authority (reply_url requestReply) <> "" ->
   has_slash (url_scheme (reply_url requestReply)) = false ->
   has_slash (url_authority (reply_url requestReply)) = false ->
   url_query (reply_url requestReply) = None ->
   url_fragment (reply_url requestReply) = None ->
   settings w'
     = <[("accounts",
          url_scheme (reply_url requestReply) +:+ ":slashslash"
          +:+ url_authority (reply_url requestReply)) := info]> (settings w)).
Proof.
  intros Ha He Ht Herr. unfold requestFinished, QJsonObject_contains.
  rewrite (bool_decide_eq_false_2 (is_Some (reply_json requestReply !! "error")))
    by (rewrite Herr; by intros [? ?]).
  rewrite !bool_decide_eq_true_2 by assumption.
  cbn. split; [done|]. split; [by rewrite lookup_insert_eq|].
  split; [intros u Hu; by rewrite lookup_insert_ne|].
  split; [done|]. split; [done|].
  intros Hs Hau Hss Has Hq Hf. unfold ACCOUNTS_GROUP.
  by rewrite settings_key_of_root.
Qed.

(** C4: a token response with an [error] member, or without one of
    [access_token], [expires_in], [token_type], makes [requestFinished] write
    one debug line and nothing else: the object (accounts, pending callbacks,
    requests sent), the emitted signals, the settings, the connections and
    the callback invocations are as before. *)
Theorem requestFinished_drops_bad_response (w : World) (requestReply : QNetworkReply) :
  is_Some (reply_json requestReply !! "error") \/
  reply_json requestReply !! "access_token" = None \/
  reply_json requestReply !! "expires_in" = None \/
  reply_json requestReply !! "token_type" = None ->
  let w' := snd (requestFinished requestReply w) in
  self w' = self w /\
  _accounts (self w') = _accounts (self w) /\
  emitted w' = emitted w /\
  settings w' = settings w /\
  dispatched (_networkAccessManager (self w'))
    = dispatched (_networkAccessManager (self w)) /\
  only_logged w w' /\
  exists line, debug w' = (debug w ++ [line])%list.
Proof.
  intros Hbad. unfold requestFinished, QJsonObject_contains.
  destruct (decide (is_Some (reply_json requestReply !! "error"))) as [Herr|Hok].
  - rewrite (bool_decide_eq_true_2 _ Herr). cbn. unfold only_logged. cbn.
    repeat split. by eexists.
  - rewrite (bool_decide_eq_false_2 _ Hok). cbn [negb].
    assert (Hmiss :
      negb (bool_decide (is_Some (reply_json requestReply !! "access_token")))
      || negb (bool_decide (is_Some (reply_json requestReply !! "expires_in")))
      || negb (bool_decide (is_Some (reply_json requestReply !! "token_type"))) = true).
    { destruct Hbad as [H | [H | [H | H]]]; [done| | |]; rewrite H;
        rewrite (bool_decide_eq_false_2 (is_Some None)) by (by intros [? ?]);
        cbn; by rewrite ?orb_true_r. }
    rewrite Hmiss. unfold only_logged. cbn. repeat split. by eexists.
Qed.

(** *** Pending callbacks *)

(** A request that is sent with a non-empty callback spec gets one entry,
    under the address of its reply. *)
Lemma invokedRequest_registers (w : World) (path : string) (operation : Operation)
    (callbackParams : JSONCallbackParameters) (dataByteArray : string) :
  fst (hasValidAccessToken w) = true ->
  operation = GetOperation \/ operation = PostOperation ->
  isEmpty callbackParams = false ->
  let w' := snd (invokedRequest path operation callbackParams dataByteArray w) in
  let reply := nextReply (_networkAccessManager (self w)) in
  _pendingCallbackMap (self w') = <[reply := callbackParams]> (_pendingCallbackMap (self w)) /\
  connections w'
    = (connections w ++ [(reply, SigFinished, SlotPassSuccessToCallback);
                         (reply, SigError, SlotPassErrorToCallback)])%list.
Proof.
  intros Hyes Hop Hne.
  pose proof (hasValidAccessToken_true w Hyes) as Hw.
  unfold invokedRequest, bind.
  destruct (hasValidAccessToken w) as [valid w1]. cbn in Hyes, Hw. subst valid w1.
  unfold this. rewrite Hne. cbn.
  destruct Hop as [-> | ->]; cbn; by rewrite <- app_assoc.
Qed.

(** The success slot deletes the entry of the reply exactly when the entry
    names a success receiver. *)
Lemma passSuccessToCallback_pending (w : World) (requestReply : QNetworkReply) :
  _pendingCallbackMap (self (snd (passSuccessToCallback requestReply w))) =
  match _pendingCallbackMap (self w) !! reply_ptr requestReply with
  | Some p =>
      match jsonCallbackReceiver p with
      | Some _ => delete (reply_ptr requestReply) (_pendingCallbackMap (self w))
      | None => _pendingCallbackMap (self w)
      end
  | None => _pendingCallbackMap (self w)
  end.
Proof.
  unfold passSuccessToCallback, bind, this. cbn.
  destruct (_pendingCallbackMap (self w) !! reply_ptr requestReply) as [p|]; cbn.
  - by destruct (jsonCallbackReceiver p).
  - done.
Qed.

(** The error slot deletes the entry of the reply exactly when the entry
    names an error receiver. *)
Lemma passErrorToCallback_pending (w : World) (requestReply : QNetworkReply) (errorCode : Z) :
  _pendingCallbackMap (self (snd (passErrorToCallback requestReply errorCode w))) =
  match _pendingCallbackMap (self w) !! reply_ptr requestReply with
  | Some p =>
      match errorCallbackReceiver p with
      | Some _ => delete (reply_ptr requestReply) (_pendingCallbackMap (self w))
      | None => _pendingCallbackMap (self w)
      end
  | None => _pendingCallbackMap (self w)
  end.
Proof.
  unfold passErrorToCallback, bind, this. cbn.
  destruct (_pendingCallbackMap (self w) !! reply_ptr requestReply) as [p|]; cbn.
  - by destruct (errorCallbackReceiver p).
  - done.
Qed.

(** With both receivers named, either slot removes the entry. *)
Lemma both_receivers_entry_removed (w : World) (requestReply : QNetworkReply)
    (errorCode : Z) (p : JSONCallbackParameters) :
  _pendingCallbackMap (self w) !! reply_ptr requestReply = Some p ->
  is_Some (jsonCallbackReceiver p) ->
  is_Some (errorCallbackReceiver p) ->
  _pendingCallbackMap (self (snd (passSuccessToCallback requestReply w)))
    !! reply_ptr requestReply = None /\
  _pendingCallbackMap (self (snd (passErrorToCallback requestReply errorCode w)))
    !! reply_ptr requestReply = None.
Proof.
  intros Hp [r1 H1] [r2 H2].
  rewrite passSuccessToCallback_pending, passErrorToCallback_pending, Hp, H1, H2.
  split; apply lookup_delete_eq.
Qed.

(** C6, on the code: a GET request sent with a callback spec that names only
    an error receiver gets its entry in the pending-callback map; when its
    reply finishes successfully, the success slot runs, invokes nothing and
    leaves the entry in the map. *)
Theorem pending_entry_kept_after_success :
  let w1 := snd (authenticatedRequest "/api/v1/users" GetOperation errorOnlyCallback ""
                                      loggedIn) in
  let reply := mkQNetworkReply 1%positive
                 (mkQUrl "https" "data.example.org" "/api/v1/users"
                         (Some "access_token=abc") None) ∅ "" in
  let w2 := snd (deliver SigFinished reply 0 w1) in
  isEmpty errorOnlyCallback = false /\
  sent_reply <$> dispatched (_networkAccessManager (self w1)) = [1%positive] /\
  _pendingCallbackMap (self w1) = {[ 1%positive := errorOnlyCallback ]} /\
  connectedSlots 1%positive SigFinished (connections w1) = [SlotPassSuccessToCallback] /\
  _pendingCallbackMap (self w2) = {[ 1%positive := errorOnlyCallback ]} /\
  invoked w2 = [].
Proof. repeat split. Qed.

(** *** The theorems at sample worlds *)

Lemma hasValidAccessToken_iff_witness :
  fst (hasValidAccessToken loggedIn) = true /\
  fst (hasValidAccessToken loggedOut) = false /\
  fst (hasValidAccessToken expired) = false.
Proof.
  split; [|split].
  - apply (proj1 (hasValidAccessToken_iff loggedIn)).
    exists sampleToken. repeat split. discriminate.
  - apply (proj1 (proj2 (hasValidAccessToken_iff loggedOut))). reflexivity.
  - apply (proj2 (proj2 (hasValidAccessToken_iff expired)) sampleToken).
    + reflexivity.
    + apply isExpired_after_expiry. cbn. lia.
Defined.

Lemma setRootURL_username_witness :
  _username (self (snd (setRootURL (setPath "/other" sampleURL) loggedIn))) = "" /\
  snd (setRootURL sampleURL loggedIn) = loggedIn.
Proof.
  split.
  - apply (proj1 (proj2 (setRootURL_username loggedIn (setPath "/other" sampleURL)))).
    discriminate.
  - apply (proj2 (proj2 (setRootURL_username loggedIn sampleURL))). reflexivity.
Defined.

Lemma authenticatedRequest_without_token_witness :
  fst (hasValidAccessToken expired) = false /\
  only_logged expired
    (snd (authenticatedRequest "/api/v1/users" GetOperation bothCallbacks "" expired)).
Proof.
  split; [reflexivity|].
  apply (authenticatedRequest_without_token expired "/api/v1/users" GetOperation
           bothCallbacks ""). reflexivity.
Defined.

Lemma invokedRequest_token_in_query_witness :
  exists info d,
    _accounts (self loggedIn) !! _rootURL (self loggedIn) = Some info /\
    dispatched (_networkAccessManager
                  (self (snd (invokedRequest "/api/v1/users" PostOperation bothCallbacks
                                             "name=alice" loggedIn))))
      = (dispatched (_networkAccessManager (self loggedIn)) ++ [d])%list /\
    url_query (req_url (sent_request d))
      = Some ("access_token=" +:+ token (getAccessToken info)).
Proof.
  destruct (invokedRequest_token_in_query loggedIn "/api/v1/users" PostOperation
              bothCallbacks "name=alice") as (info & d & Hi & Hd & _ & _ & _ & _ & _ & Hq & _).
  - reflexivity.
  - right. reflexivity.
  - exists info, d. repeat split; assumption.
Defined.

Lemma requestFinished_stores_token_witness :
  _accounts (self (snd (requestFinished tokenResponse loggedOut)))
    = {[ sampleURL := mkDataServerAccountInfo (mkOAuthAccessToken "abc" "bearer" 3610) ]} /\
  emitted (snd (requestFinished tokenResponse loggedOut)) = [receivedAccessToken sampleURL] /\
  settings (snd (requestFinished tokenResponse loggedOut))
    = {[ ("accounts", "https:slashslashdata.example.org")
           := mkDataServerAccountInfo (mkOAuthAccessToken "abc" "bearer" 3610) ]}.
Proof.
  destruct (requestFinished_stores_token loggedOut tokenResponse)
    as (Hacc & _ & _ & He & Hset & Hkey).
  - by eexists.
  - by eexists.
  - by eexists.
  - reflexivity.
  - split; [exact Hacc|]. split; [exact He|].
    rewrite Hkey; [reflexivity | discriminate | discriminate
                  | reflexivity | reflexivity | reflexivity | reflexivity].
Defined.

Lemma requestFinished_drops_bad_response_witness :
  self (snd (requestFinished errorResponse loggedOut)) = self loggedOut /\
  emitted (snd (requestFinished errorResponse loggedOut)) = [].
Proof.
  destruct (requestFinished_drops_bad_response loggedOut errorResponse)
    as (Hs & _ & He & _).
  - left. by eexists.
  - split; [exact Hs | exact He].
Defined.

End AccountManagerSpec.

(** * Further properties *)

(** ** Node permissions: persistence and bulk updates *)

Module NodePermissionsMore.
Import Qt NodePermissions.

(** Reading back what [toVariant] wrote gives the value (shared by the lemmas
    below). *)
Lemma fromMap_toMap_toVariant (p : NodePermissions) :
  fromMap (toMap (toVariant p)) = p.
Proof.
  destruct (NodePermissionsSpec.index_toVariant p) as (Hid & H1 & H2 & H3 & H4 & H5 & H6).
  cbv zeta in *. unfold fromMap.
  rewrite Hid, H1, H2, H3, H4, H5, H6. by destruct p.
Qed.

(** A key that is not persisted differs from each of the seven. *)
Lemma not_persisted (k : string) :
  k ∉ persistedKeys ->
  k <> "permissions_id" /\ k <> "id_can_connect" /\ k <> "id_can_adjust_locks" /\
  k <> "id_can_rez" /\ k <> "id_can_rez_tmp" /\ k <> "id_can_write_to_asset_server" /\
  k <> "id_can_connect_past_max_capacity".
Proof.
  intros H. repeat split; intros ->; apply H; by apply (bool_decide_unpack _).
Qed.

(** The map constructor assigns every flag, so the member initialisers do
    not survive it: a flag whose key is missing is false (also
    [canConnectToDomain], which the other constructors leave true), and a
    missing [permissions_id] gives the empty identifier. *)
Theorem fromMap_missing_key (m : gmap string QVariant) :
  (m !! "permissions_id" = None -> getID (fromMap m) = "") /\
  (m !! "id_can_connect" = None -> canConnectToDomain (fromMap m) = false) /\
  (m !! "id_can_adjust_locks" = None -> canAdjustLocks (fromMap m) = false) /\
  (m !! "id_can_rez" = None -> canRezPermanentEntities (fromMap m) = false) /\
  (m !! "id_can_rez_tmp" = None -> canRezTemporaryEntities (fromMap m) = false) /\
  (m !! "id_can_write_to_asset_server" = None -> canWriteToAssetServer (fromMap m) = false) /\
  (m !! "id_can_connect_past_max_capacity" = None ->
     canConnectPastMaxCapacity (fromMap m) = false).
Proof. unfold fromMap, getID, index. cbn. repeat split; intros ->; reflexivity. Qed.

Lemma fromMap_missing_key_witness :
  canConnectToDomain (fromMap ∅) = false /\ canConnectToDomain (named "") = true.
Proof.
  split; [|reflexivity].
  apply (proj1 (proj2 (fromMap_missing_key ∅))). reflexivity.
Defined.

(** The map constructor looks at the seven persisted keys only: adding,
    changing or removing any other key of the map does not change what it
    builds. *)
Theorem fromMap_other_key (m : gmap string QVariant) (k : string) (v : QVariant) :
  k ∉ persistedKeys ->
  fromMap (<[k := v]> m) = fromMap m /\ fromMap (delete k m) = fromMap m.
Proof.
  intros Hk. destruct (not_persisted k Hk) as (H0 & H1 & H2 & H3 & H4 & H5 & H6).
  unfold fromMap, index. split.
  - by rewrite !lookup_insert_ne.
  - by rewrite !lookup_delete_ne.
Qed.

Lemma fromMap_other_key_witness :
  fromMap (<["comment" := QStr "staff"]> (toMap (toVariant (named "localhost"))))
  = fromMap (toMap (toVariant (named "localhost"))).
Proof.
  apply (fromMap_other_key (toMap (toVariant (named "localhost"))) "comment" (QStr "staff")).
  by apply (bool_decide_unpack _).
Defined.

(** [toVariant] writes the seven persisted keys and no other. *)
Theorem toVariant_keys (p : NodePermissions) :
  dom (toMap (toVariant p)) = list_to_set persistedKeys /\
  size (toMap (toVariant p)) = 7.
Proof.
  assert (D : dom (toMap (toVariant p)) = list_to_set persistedKeys).
  { destruct p. reflexivity. }
  split; [exact D|].
  rewrite <- size_dom, D. reflexivity.
Qed.

(** Two permission records with the same persisted form are the same
    record: [toVariant] loses nothing. *)
Theorem toVariant_inj (p q : NodePermissions) :
  toVariant p = toVariant q -> p = q.
Proof.
  intros E.
  rewrite <- (fromMap_toMap_toVariant p), <- (fromMap_toMap_toVariant q).
  by rewrite E.
Qed.

Lemma toVariant_inj_witness :
  fromMap (toMap (toVariant (named "anonymous"))) = named "anonymous".
Proof.
  apply (toVariant_inj (fromMap (toMap (toVariant (named "anonymous")))) (named "anonymous")).
  reflexivity.
Defined.

(** [setAll value] sets the six flags to [value] and keeps the identifier;
    of two calls in a row the second decides, and the result comes back
    unchanged from the persisted form. *)
Theorem setAll_flags (value earlier : bool) (p : NodePermissions) :
  flags (setAll value p) = replicate 6 value /\
  getID (setAll value p) = getID p /\
  setAll value (setAll earlier p) = setAll value p /\
  flags (fromMap (toMap (toVariant (setAll value p)))) = replicate 6 value.
Proof.
  split; [done|]. split; [done|]. split; [done|].
  by rewrite fromMap_toMap_toVariant.
Qed.

End NodePermissionsMore.

(** ** Account manager: the remaining member functions and their interplay *)

Module AccountManagerMore.
Import Stdlib.Strings.Ascii.
Import Qt AccountManager.

(** *** Asking for a token *)

(** [checkAndSignalForAccessToken] answers what [hasValidAccessToken]
    answers, emits [authenticationRequired] exactly when the answer is no,
    and changes nothing else but the debug output. *)
Theorem checkAndSignalForAccessToken_emits (w : World) :
  let w' := snd (checkAndSignalForAccessToken w) in
  fst (checkAndSignalForAccessToken w) = fst (hasValidAccessToken w) /\
  emitted w' = (emitted w ++
                if fst (hasValidAccessToken w) then [] else [authenticationRequired])%list /\
  self w' = self w /\ settings w' = settings w /\
  connections w' = connections w /\ invoked w' = invoked w.
Proof.
  unfold checkAndSignalForAccessToken, bind.
  pose proof (AccountManagerSpec.hasValidAccessToken_frame w) as (Hs & _ & Hse & Hc & He & Hi).
  destruct (hasValidAccessToken w) as [[|] w1]; cbn in *.
  - rewrite app_nil_r. by repeat split.
  - rewrite He. by repeat split.
Qed.

(** [requestAccessToken] posts one form-encoded request to the root URL with
    the path "/oauth/token"; the body is the grant type followed by the
    login and the password as they were given (nothing is escaped). The reply
    is connected to [requestFinished] and [requestError]; no callback is
    registered and no account is touched. It does not look at the token
    already held. *)
Theorem requestAccessToken_posts_grant (w : World) (login password : string) :
  let w' := snd (requestAccessToken login password w) in
  let reply := nextReply (_networkAccessManager (self w)) in
  dispatched (_networkAccessManager (self w'))
    = (dispatched (_networkAccessManager (self w)) ++
       [mkDispatched PostOperation
          (mkQNetworkRequest (setPath "/oauth/token" (_rootURL (self w)))
             [(ContentTypeHeader, "application/x-www-form-urlencoded")] [])
          ("grant_type=password&username=" +:+ login +:+ "&password=" +:+ password)
          reply])%list /\
  connections w'
    = (connections w ++ [(reply, SigFinished, SlotRequestFinished);
                         (reply, SigError, SlotRequestError)])%list /\
  nextReply (_networkAccessManager (self w')) = Pos.succ reply /\
  _pendingCallbackMap (self w') = _pendingCallbackMap (self w) /\
  _accounts (self w') = _accounts (self w) /\
  _rootURL (self w') = _rootURL (self w) /\
  _username (self w') = _username (self w) /\
  emitted w' = emitted w /\ settings w' = settings w /\
  invoked w' = invoked w /\ debug w' = debug w.
Proof.
  unfold requestAccessToken, send, bind, this. cbn.
  rewrite <- app_assoc. repeat split.
  do 3 f_equal. rewrite !AccountManagerSpec.append_assoc. reflexivity.
Qed.

(** *** Requests that are not sent, or sent without a callback *)

(** With a valid token but an operation other than GET and POST,
    [invokedRequest] announces the request in the debug output and then sends
    nothing, registers nothing and connects nothing. *)
Theorem invokedRequest_other_operation (w : World) (path : string) (operation : Operation)
    (callbackParams : JSONCallbackParameters) (dataByteArray : string) :
  fst (hasValidAccessToken w) = true ->
  operation <> GetOperation ->
  operation <> PostOperation ->
  let w' := snd (invokedRequest path operation callbackParams dataByteArray w) in
  only_logged w w' /\
  exists url,
    debug w' = (debug w ++ [[DText "Making an authenticated request to"; DText url]])%list.
Proof.
  intros Hyes Hg Hp.
  pose proof (AccountManagerSpec.hasValidAccessToken_true w Hyes) as Hw.
  unfold invokedRequest, bind.
  destruct (hasValidAccessToken w) as [valid w1]. cbn in Hyes, Hw. subst valid w1.
  unfold this, only_logged. cbn.
  destruct operation; try done; cbn; (split; [by repeat split | by eexists]).
Qed.

Lemma invokedRequest_other_operation_witness :
  only_logged loggedIn
    (snd (invokedRequest "/api/v1/users" DeleteOperation bothCallbacks "" loggedIn)).
Proof.
  apply (invokedRequest_other_operation loggedIn "/api/v1/users" DeleteOperation
           bothCallbacks ""); [reflexivity | discriminate | discriminate].
Defined.

(** *** What a member function does to the object and the connections *)

Lemma checkAndSignalForAccessToken_frame_self (w : World) :
  self (snd (checkAndSignalForAccessToken w)) = self w /\
  connections (snd (checkAndSignalForAccessToken w)) = connections w.
Proof.
  unfold checkAndSignalForAccessToken, bind.
  pose proof (AccountManagerSpec.hasValidAccessToken_frame w) as (Hs & _ & _ & Hc & _).
  by destruct (hasValidAccessToken w) as [[|] w1].
Qed.

(** A request that is sent: the reply address, the recorded call, the entry
    (unless the callback spec is empty) and the two connections. *)
Lemma invokedRequest_effect (w : World) (path : string) (operation : Operation)
    (callbackParams : JSONCallbackParameters) (dataByteArray : string) :
  fst (hasValidAccessToken w) = true ->
  operation = GetOperation \/ operation = PostOperation ->
  let w' := snd (invokedRequest path operation callbackParams dataByteArray w) in
  let reply := nextReply (_networkAccessManager (self w)) in
  nextReply (_networkAccessManager (self w')) = Pos.succ reply /\
  (exists request,
     dispatched (_networkAccessManager (self w'))
       = (dispatched (_networkAccessManager (self w)) ++
          [mkDispatched operation request
             (match operation with PostOperation => dataByteArray | _ => "" end)
             reply])%list) /\
  _pendingCallbackMap (self w')
    = (if isEmpty callbackParams then _pendingCallbackMap (self w)
       else <[reply := callbackParams]> (_pendingCallbackMap (self w))) /\
  connections w'
    = (connections w ++ [(reply, SigFinished, SlotPassSuccessToCallback);
                         (reply, SigError, SlotPassErrorToCallback)])%list /\
  _accounts (self w') = _accounts (self w) /\
  _rootURL (self w') = _rootURL (self w) /\
  _username (self w') = _username (self w) /\
  clock w' = clock w /\ settings w' = settings w /\
  emitted w' = emitted w /\ invoked w' = invoked w.
Proof.
  intros Hyes Hop.
  pose proof (AccountManagerSpec.hasValidAccessToken_true w Hyes) as Hw.
  unfold invokedRequest, bind.
  destruct (hasValidAccessToken w) as [valid w1]. cbn in Hyes, Hw. subst valid w1.
  unfold this. cbn.
  destruct Hop as [-> | ->]; destruct (isEmpty callbackParams); cbn;
    rewrite <- app_assoc; repeat split; by eexists.
Qed.

(** A request that is not sent leaves everything but the debug output. *)
Lemma invokedRequest_skipped (w : World) (path : string) (operation : Operation)
    (callbackParams : JSONCallbackParameters) (dataByteArray : string) :
  fst (hasValidAccessToken w) = false \/
  (operation <> GetOperation /\ operation <> PostOperation) ->
  only_logged w (snd (invokedRequest path operation callbackParams dataByteArray w)).
Proof.
  intros Hskip. unfold invokedRequest, bind.
  pose proof (AccountManagerSpec.hasValidAccessToken_frame w) as Hf.
  destruct (hasValidAccessToken w) as [[|] w1]; cbn in Hskip, Hf; [|exact Hf].
  destruct Hskip as [? | [Hg Hp]]; [done|].
  destruct Hf as (Hs & Hc & Hse & Hco & He & Hi).
  unfold this, only_logged. cbn. destruct operation; try done; cbn; by repeat split.
Qed.

(** The slots connected to a reply nobody has connected to yet. *)
Lemma connectedSlots_fresh (sender : positive) (sig : ReplySignal)
    (cs : list (positive * ReplySignal * Slot)) :
  (forall r sg slot, (r, sg, slot) ∈ cs -> r <> sender) ->
  connectedSlots sender sig cs = [].
Proof.
  induction cs as [|[[r sg] slot] cs IH]; intros Hcs; [done|].
  unfold connectedSlots in *. cbn.
  rewrite (bool_decide_eq_false_2 (r = sender)) by (eapply Hcs; left).
  cbn. apply IH. intros r' sg' slot' Hin. eapply Hcs. right. exact Hin.
Qed.

Lemma connectedSlots_app (sender : positive) (sig : ReplySignal)
    (cs1 cs2 : list (positive * ReplySignal * Slot)) :
  connectedSlots sender sig (cs1 ++ cs2)
  = (connectedSlots sender sig cs1 ++ connectedSlots sender sig cs2)%list.
Proof. unfold connectedSlots. apply omap_app. Qed.

(** No connection of a world mentions the reply address that comes next. *)
Lemma next_reply_unconnected (w : World) (sig : ReplySignal) :
  replies_allocated w ->
  connectedSlots (nextReply (_networkAccessManager (self w))) sig (connections w) = [].
Proof.
  intros (_ & Hc & _). apply connectedSlots_fresh.
  intros r sg slot Hin ->. apply Hc in Hin. unfold allocated in Hin. lia.
Qed.

Lemma next_reply_unregistered (w : World) :
  replies_allocated w ->
  _pendingCallbackMap (self w) !! nextReply (_networkAccessManager (self w)) = None.
Proof.
  intros (Hp & _). apply eq_None_not_Some. intros Hsome.
  apply Hp in Hsome. unfold allocated in Hsome. lia.
Qed.

(** How [replies_allocated] carries over to a later world. *)
Lemma replies_allocated_later (w w' : World) :
  replies_allocated w ->
  (nextReply (_networkAccessManager (self w))
   <= nextReply (_networkAccessManager (self w')))%positive ->
  (forall r, is_Some (_pendingCallbackMap (self w') !! r) ->
             is_Some (_pendingCallbackMap (self w) !! r) \/ allocated w' r) ->
  (forall r sig slot, (r, sig, slot) ∈ connections w' ->
                      (r, sig, slot) ∈ connections w \/ allocated w' r) ->
  (forall d, d ∈ dispatched (_networkAccessManager (self w')) ->
             d ∈ dispatched (_networkAccessManager (self w)) \/ allocated w' (sent_reply d)) ->
  replies_allocated w'.
Proof.
  intros (Hp & Hc & Hd) Hle Hp' Hc' Hd'. repeat split; unfold allocated in *.
  - intros r Hr. destruct (Hp' r Hr) as [H|H]; [apply Hp in H; lia | exact H].
  - intros r sig slot Hr. destruct (Hc' r sig slot Hr) as [H|H]; [apply Hc in H; lia | exact H].
  - intros d Hr. destruct (Hd' d Hr) as [H|H]; [apply Hd in H; lia | exact H].
Qed.

(** A world that differs in neither the pending callbacks, the connections
    nor the network access manager. *)
Lemma replies_allocated_same (w w' : World) :
  replies_allocated w ->
  _pendingCallbackMap (self w') = _pendingCallbackMap (self w) ->
  connections w' = connections w ->
  _networkAccessManager (self w') = _networkAccessManager (self w) ->
  replies_allocated w'.
Proof.
  intros H Hp Hc Hn. apply (replies_allocated_later w w' H).
  - rewrite Hn. lia.
  - intros r. rewrite Hp. by left.
  - intros r sig slot. rewrite Hc. by left.
  - intros d. rewrite Hn. by left.
Qed.

Lemma replies_allocated_worldAt (now : Z) (root : QUrl) (name : string)
    (accounts : gmap QUrl DataServerAccountInfo) :
  replies_allocated (worldAt now root name accounts).
Proof.
  repeat split; cbn.
  - intros r [p Hp]. by rewrite lookup_empty in Hp.
  - intros r sig slot Hin. by apply elem_of_nil in Hin.
  - intros d Hin. by apply elem_of_nil in Hin.
Qed.

(** *** Slots only ever drop pending callbacks *)

(** The operations [invokedRequest] has a [case] for, and the others. *)
Lemma Operation_handled (operation : Operation) :
  (operation = GetOperation \/ operation = PostOperation) \/
  (operation <> GetOperation /\ operation <> PostOperation).
Proof. destruct operation; (by left; (by left) || (by right)) || by right. Qed.

Lemma slot_frame_refl (w : World) : slot_frame w w.
Proof. by repeat split. Qed.

Lemma slot_frame_trans (w1 w2 w3 : World) :
  slot_frame w1 w2 -> slot_frame w2 w3 -> slot_frame w1 w3.
Proof.
  intros (Hn & Hc & Hp) (Hn' & Hc' & Hp'). repeat split; [congruence.. |].
  by etrans.
Qed.

Lemma passSuccessToCallback_frame (reply : QNetworkReply) (w : World) :
  slot_frame w (snd (passSuccessToCallback reply w)).
Proof.
  unfold passSuccessToCallback, bind, this. cbn.
  destruct (jsonCallbackReceiver _); cbn; repeat split; [apply delete_subseteq | done].
Qed.

Lemma passErrorToCallback_frame (reply : QNetworkReply) (errorCode : Z) (w : World) :
  slot_frame w (snd (passErrorToCallback reply errorCode w)).
Proof.
  unfold passErrorToCallback, bind, this. cbn.
  destruct (errorCallbackReceiver _); cbn; repeat split; [apply delete_subseteq | done].
Qed.

Lemma requestFinished_frame (reply : QNetworkReply) (w : World) :
  slot_frame w (snd (requestFinished reply w)).
Proof.
  unfold requestFinished, bind, currentTime.
  destruct (negb (QJsonObject_contains _ "error")); [|by repeat split].
  destruct (_ || _); by repeat split.
Qed.

Lemma runSlot_frame (slot : Slot) (reply : QNetworkReply) (errorCode : Z) (w : World) :
  slot_frame w (snd (runSlot slot reply errorCode w)).
Proof.
  destruct slot; cbn.
  - apply passSuccessToCallback_frame.
  - apply passErrorToCallback_frame.
  - apply requestFinished_frame.
  - by repeat split.
Qed.

Lemma runSlots_frame (slots : list Slot) (reply : QNetworkReply) (errorCode : Z) (w : World) :
  slot_frame w (snd (runSlots slots reply errorCode w)).
Proof.
  revert w. induction slots as [|slot slots IH]; intros w; [apply slot_frame_refl|].
  cbn. unfold bind.
  pose proof (runSlot_frame slot reply errorCode w) as H1.
  destruct (runSlot slot reply errorCode w) as [[] w1]. cbn in H1.
  eapply slot_frame_trans; [exact H1 | apply IH].
Qed.

Lemma slot_frame_allocated (w w' : World) :
  slot_frame w w' -> replies_allocated w -> replies_allocated w'.
Proof.
  intros (Hn & Hc & Hp) H. apply (replies_allocated_later w w' H).
  - rewrite Hn. lia.
  - intros r [p Hr]. left. exists p. eapply lookup_weaken; [exact Hr | exact Hp].
  - intros r sig slot. rewrite Hc. by left.
  - intros d. rewrite Hn. by left.
Qed.

(** The replies that pending callbacks, connections and recorded requests
    mention have all been handed out by the network access manager: every
    member function and every signal delivery keeps this. So the reply of the
    next request is never mistaken for one that is already registered or
    connected. *)
Theorem replies_allocated_kept (w : World) :
  replies_allocated w ->
  (forall u, replies_allocated (snd (setRootURL u w))) /\
  replies_allocated (snd (checkAndSignalForAccessToken w)) /\
  (forall path operation callbackParams dataByteArray,
     replies_allocated
       (snd (authenticatedRequest path operation callbackParams dataByteArray w))) /\
  (forall login password, replies_allocated (snd (requestAccessToken login password w))) /\
  (forall sig reply errorCode, replies_allocated (snd (deliver sig reply errorCode w))).
Proof.
  intros Hw. split; [|split; [|split; [|split]]].
  - intros u. apply (replies_allocated_same w _ Hw);
      unfold setRootURL, bind, this; cbn; by destruct (bool_decide _).
  - destruct (checkAndSignalForAccessToken_frame_self w) as (Hs & Hc).
    apply (replies_allocated_same w _ Hw); [by rewrite Hs | exact Hc | by rewrite Hs].
  - intros path operation callbackParams dataByteArray. unfold authenticatedRequest.
    destruct (fst (hasValidAccessToken w)) eqn:Hv;
      [destruct (Operation_handled operation) as [Hop|Hop]|].
    + destruct (invokedRequest_effect w path operation callbackParams dataByteArray Hv Hop)
        as (Hn & (request & Hd) & Hp & Hc & _).
      apply (replies_allocated_later w _ Hw); unfold allocated.
      * rewrite Hn. lia.
      * intros r. rewrite Hp, Hn. destruct (isEmpty callbackParams); [by left|].
        destruct (decide (r = nextReply (_networkAccessManager (self w)))) as [->|Hne].
        -- right. lia.
        -- rewrite lookup_insert_ne by done. by left.
      * intros r sig slot. rewrite Hc, Hn. intros Hin.
        apply elem_of_app in Hin as [Hin|Hin]; [by left|]. right.
        apply elem_of_cons in Hin as [[= -> _ _]|Hin]; [lia|].
        apply list_elem_of_singleton in Hin as [= -> _ _]. lia.
      * intros d. rewrite Hd, Hn. intros Hin.
        apply elem_of_app in Hin as [Hin|Hin]; [by left|]. right.
        apply list_elem_of_singleton in Hin as ->. cbn. lia.
    + destruct (invokedRequest_skipped w path operation callbackParams dataByteArray)
        as (Hs & _ & _ & Hc & _).
      { by right. }
      apply (replies_allocated_same w _ Hw); [by rewrite Hs | exact Hc | by rewrite Hs].
    + destruct (invokedRequest_skipped w path operation callbackParams dataByteArray)
        as (Hs & _ & _ & Hc & _); [by left|].
      apply (replies_allocated_same w _ Hw); [by rewrite Hs | exact Hc | by rewrite Hs].
  - intros login password.
    apply (replies_allocated_later w _ Hw); unfold allocated;
      unfold requestAccessToken, send, bind, this; cbn.
    + lia.
    + intros r. by left.
    + intros r sig slot Hin. rewrite <- app_assoc in Hin.
      apply elem_of_app in Hin as [Hin|Hin]; [by left|]. right.
      apply elem_of_cons in Hin as [[= -> _ _]|Hin]; [lia|].
      apply list_elem_of_singleton in Hin as [= -> _ _]. lia.
    + intros d Hin.
      apply elem_of_app in Hin as [Hin|Hin]; [by left|]. right.
      apply list_elem_of_singleton in Hin as ->. cbn. lia.
  - intros sig reply errorCode. unfold deliver.
    eapply slot_frame_allocated; [apply runSlots_frame | exact Hw].
Qed.

Lemma replies_allocated_kept_witness :
  replies_allocated
    (snd (deliver SigFinished tokenResponse 0
            (snd (requestAccessToken "alice" "secret" loggedOut)))).
Proof.
  apply (replies_allocated_kept (snd (requestAccessToken "alice" "secret" loggedOut))).
  apply (proj1 (proj2 (proj2 (proj2 (replies_allocated_kept loggedOut
                                       (replies_allocated_worldAt _ _ _ _)))))).
Defined.

(** *** From request to callback *)

Lemma passSuccessToCallback_invokes (w : World) (reply : QNetworkReply)
    (p : JSONCallbackParameters) (receiver : positive) :
  _pendingCallbackMap (self w) !! reply_ptr reply = Some p ->
  jsonCallbackReceiver p = Some receiver ->
  let w' := snd (passSuccessToCallback reply w) in
  invoked w' = (invoked w ++ [InvokeJson receiver (jsonCallbackMethod p) (reply_json reply)])%list /\
  _pendingCallbackMap (self w') = delete (reply_ptr reply) (_pendingCallbackMap (self w)) /\
  debug w' = debug w /\ emitted w' = emitted w.
Proof.
  intros Hp Hr. unfold passSuccessToCallback, bind, this. cbn.
  rewrite Hp. cbn. rewrite Hr. by cbn.
Qed.

Lemma passErrorToCallback_invokes (w : World) (reply : QNetworkReply) (errorCode : Z)
    (p : JSONCallbackParameters) (receiver : positive) :
  _pendingCallbackMap (self w) !! reply_ptr reply = Some p ->
  errorCallbackReceiver p = Some receiver ->
  let w' := snd (passErrorToCallback reply errorCode w) in
  invoked w' = (invoked w ++ [InvokeError receiver (errorCallbackMethod p) errorCode
                                          (reply_errorString reply)])%list /\
  _pendingCallbackMap (self w') = delete (reply_ptr reply) (_pendingCallbackMap (self w)) /\
  debug w' = debug w /\ emitted w' = emitted w.
Proof.
  intros Hp Hr. unfold passErrorToCallback, bind, this. cbn.
  rewrite Hp. cbn. rewrite Hr. by cbn.
Qed.

Lemma passSuccessToCallback_logs (w : World) (reply : QNetworkReply) :
  jsonCallbackReceiver
    (default JSONCallbackParameters_default
             (_pendingCallbackMap (self w) !! reply_ptr reply)) = None ->
  let w' := snd (passSuccessToCallback reply w) in
  only_logged w w' /\
  debug w' = (debug w ++
              [[DText "Received JSON response from data-server that has no matching callback."];
               [DJson (reply_json reply)]])%list.
Proof.
  intros Hr. unfold passSuccessToCallback, bind, this, only_logged. cbn.
  rewrite Hr. cbn. rewrite <- app_assoc. by repeat split.
Qed.

Lemma passErrorToCallback_logs (w : World) (reply : QNetworkReply) (errorCode : Z) :
  errorCallbackReceiver
    (default JSONCallbackParameters_default
             (_pendingCallbackMap (self w) !! reply_ptr reply)) = None ->
  let w' := snd (passErrorToCallback reply errorCode w) in
  only_logged w w' /\
  debug w' = (debug w ++
              [[DText "Received error response from data-server that has no matching callback."];
               [DText "Error"; DErrorCode errorCode; DText "-";
                DText (reply_errorString reply)]])%list.
Proof.
  intros Hr. unfold passErrorToCallback, bind, this, only_logged. cbn.
  rewrite Hr. cbn. rewrite <- app_assoc. by repeat split.
Qed.

(** A response for a reply that has no entry in the pending-callback map
    (none was registered, or it was removed already) invokes nothing: either
    slot writes its two debug lines and changes nothing else. *)
Theorem response_without_entry (w : World) (reply : QNetworkReply) (errorCode : Z) :
  _pendingCallbackMap (self w) !! reply_ptr reply = None ->
  only_logged w (snd (passSuccessToCallback reply w)) /\
  only_logged w (snd (passErrorToCallback reply errorCode w)) /\
  length (debug (snd (passSuccessToCallback reply w))) = S (S (length (debug w))) /\
  length (debug (snd (passErrorToCallback reply errorCode w))) = S (S (length (debug w))).
Proof.
  intros Hnone.
  destruct (passSuccessToCallback_logs w reply) as (Hs & Hds); [by rewrite Hnone|].
  destruct (passErrorToCallback_logs w reply errorCode) as (He & Hde); [by rewrite Hnone|].
  repeat split; try apply Hs; try apply He.
  - rewrite Hds, length_app. cbn. lia.
  - rewrite Hde, length_app. cbn. lia.
Qed.

Lemma response_without_entry_witness :
  only_logged loggedIn (snd (passSuccessToCallback tokenResponse loggedIn)).
Proof.
  apply (response_without_entry loggedIn tokenResponse 0). reflexivity.
Defined.

(** The slots that run when the reply of a request just sent by
    [invokedRequest] emits a signal. *)
Lemma connectedSlots_sent (w : World) (cs : list (positive * ReplySignal * Slot)) :
  replies_allocated w ->
  let reply := nextReply (_networkAccessManager (self w)) in
  cs = (connections w ++ [(reply, SigFinished, SlotPassSuccessToCallback);
                          (reply, SigError, SlotPassErrorToCallback)])%list ->
  connectedSlots reply SigFinished cs = [SlotPassSuccessToCallback] /\
  connectedSlots reply SigError cs = [SlotPassErrorToCallback].
Proof.
  intros Hw reply ->. subst reply.
  rewrite !connectedSlots_app, !next_reply_unconnected by done.
  unfold connectedSlots. cbn.
  rewrite !(bool_decide_eq_true_2 (nextReply _ = nextReply _)) by done. by cbn.
Qed.

(** A signal with one connected slot runs that slot. *)
Lemma deliver_single (sig : ReplySignal) (reply : QNetworkReply) (errorCode : Z)
    (w : World) (slot : Slot) :
  connectedSlots (reply_ptr reply) sig (connections w) = [slot] ->
  snd (deliver sig reply errorCode w) = snd (runSlot slot reply errorCode w).
Proof.
  intros Hc. unfold deliver. rewrite Hc. cbn [runSlots]. unfold bind, ret.
  by destruct (runSlot slot reply errorCode w).
Qed.

(** A GET or POST request with a success receiver, followed by the
    [finished] signal of its reply: the receiver's method is invoked once,
    with the JSON object of the reply, and the pending-callback map is what it
    was before the request. If the reply finishes a second time nothing is
    invoked. *)
Theorem request_then_finished (w : World) (path : string) (operation : Operation)
    (callbackParams : JSONCallbackParameters) (dataByteArray : string)
    (reply : QNetworkReply) (receiver : positive) :
  replies_allocated w ->
  fst (hasValidAccessToken w) = true ->
  operation = GetOperation \/ operation = PostOperation ->
  jsonCallbackReceiver callbackParams = Some receiver ->
  reply_ptr reply = nextReply (_networkAccessManager (self w)) ->
  let w1 := snd (authenticatedRequest path operation callbackParams dataByteArray w) in
  let w2 := snd (deliver SigFinished reply 0 w1) in
  let w3 := snd (deliver SigFinished reply 0 w2) in
  _pendingCallbackMap (self w1) !! reply_ptr reply = Some callbackParams /\
  invoked w2 = (invoked w ++ [InvokeJson receiver (jsonCallbackMethod callbackParams)
                                         (reply_json reply)])%list /\
  _pendingCallbackMap (self w2) = _pendingCallbackMap (self w) /\
  invoked w3 = invoked w2 /\
  _pendingCallbackMap (self w3) = _pendingCallbackMap (self w).
Proof.
  intros Hw Hv Hop Hr Hptr. unfold authenticatedRequest.
  destruct (invokedRequest_effect w path operation callbackParams dataByteArray Hv Hop)
    as (Hn & _ & Hp & Hc & _ & _ & _ & _ & _ & _ & Hi).
  set (w1 := snd (invokedRequest path operation callbackParams dataByteArray w)) in *.
  assert (Hne : isEmpty callbackParams = false) by (unfold isEmpty; by rewrite Hr).
  rewrite Hne in Hp. cbn zeta.
  destruct (connectedSlots_sent w (connections w1) Hw Hc) as (Hfin & _).
  rewrite <- Hptr in Hfin, Hp.
  assert (H1 : _pendingCallbackMap (self w1) !! reply_ptr reply = Some callbackParams)
    by (rewrite Hp; apply lookup_insert_eq).
  destruct (passSuccessToCallback_invokes w1 reply callbackParams receiver H1 Hr)
    as (Hi2 & Hp2 & _).
  assert (E2 : snd (deliver SigFinished reply 0 w1) = snd (passSuccessToCallback reply w1)).
  { exact (deliver_single SigFinished reply 0 w1 _ Hfin). }
  rewrite E2. set (w2 := snd (passSuccessToCallback reply w1)) in *.
  assert (Hp2' : _pendingCallbackMap (self w2) = _pendingCallbackMap (self w)).
  { rewrite Hp2, Hp, delete_insert_eq. apply delete_id.
    rewrite Hptr. by apply next_reply_unregistered. }
  assert (Hc2 : connections w2 = connections w1) by apply passSuccessToCallback_frame.
  assert (Hnone : _pendingCallbackMap (self w2) !! reply_ptr reply = None).
  { rewrite Hp2', Hptr. by apply next_reply_unregistered. }
  destruct (passSuccessToCallback_logs w2 reply) as ((Hs3 & _ & _ & _ & _ & Hi3) & _);
    [by rewrite Hnone|].
  assert (E3 : snd (deliver SigFinished reply 0 w2) = snd (passSuccessToCallback reply w2)).
  { apply (deliver_single SigFinished reply 0 w2 SlotPassSuccessToCallback).
    by rewrite Hc2. }
  rewrite E3. split; [exact H1|]. split; [by rewrite Hi2, Hi|]. split; [exact Hp2'|].
  split; [exact Hi3 | by rewrite Hs3].
Qed.

Lemma request_then_finished_witness :
  invoked (snd (deliver SigFinished
                  (mkQNetworkReply 1%positive sampleURL
                                   (<["name" := JString "alice"]> ∅) "") 0
                  (snd (authenticatedRequest "/api/v1/users" GetOperation bothCallbacks ""
                                             loggedIn))))
  = [InvokeJson 7%positive "handleJson" (<["name" := JString "alice"]> ∅)].
Proof.
  destruct (request_then_finished loggedIn "/api/v1/users" GetOperation bothCallbacks ""
              (mkQNetworkReply 1%positive sampleURL (<["name" := JString "alice"]> ∅) "")
              7%positive) as (_ & Hi & _).
  - apply replies_allocated_worldAt.
  - reflexivity.
  - by left.
  - reflexivity.
  - reflexivity.
  - exact Hi.
Defined.

(** A reply that fails emits [error] and then [finished]. For a request
    sent with a non-empty callback spec the two slots together invoke exactly
    one method: the error receiver's if there is one; otherwise the success
    receiver's, with the JSON object of the failed reply. Afterwards the
    pending-callback map is what it was before the request. *)
Theorem request_then_error_and_finished (w : World) (path : string) (operation : Operation)
    (callbackParams : JSONCallbackParameters) (dataByteArray : string)
    (reply : QNetworkReply) (errorCode : Z) :
  replies_allocated w ->
  fst (hasValidAccessToken w) = true ->
  operation = GetOperation \/ operation = PostOperation ->
  isEmpty callbackParams = false ->
  reply_ptr reply = nextReply (_networkAccessManager (self w)) ->
  let w1 := snd (authenticatedRequest path operation callbackParams dataByteArray w) in
  let w2 := snd (deliver SigError reply errorCode w1) in
  let w3 := snd (deliver SigFinished reply errorCode w2) in
  invoked w3
    = (invoked w ++
       match errorCallbackReceiver callbackParams, jsonCallbackReceiver callbackParams with
       | Some receiver, _ =>
           [InvokeError receiver (errorCallbackMethod callbackParams) errorCode
                        (reply_errorString reply)]
       | None, Some receiver =>
           [InvokeJson receiver (jsonCallbackMethod callbackParams) (reply_json reply)]
       | None, None => []
       end)%list /\
  _pendingCallbackMap (self w3) = _pendingCallbackMap (self w).
Proof.
  intros Hw Hv Hop Hne Hptr. unfold authenticatedRequest.
  destruct (invokedRequest_effect w path operation callbackParams dataByteArray Hv Hop)
    as (Hn & _ & Hp & Hc & _ & _ & _ & _ & _ & _ & Hi).
  set (w1 := snd (invokedRequest path operation callbackParams dataByteArray w)) in *.
  rewrite Hne in Hp. cbn zeta.
  destruct (connectedSlots_sent w (connections w1) Hw Hc) as (Hfin & Herr).
  rewrite <- Hptr in Hfin, Herr, Hp.
  assert (Hfresh : _pendingCallbackMap (self w) !! reply_ptr reply = None)
    by (rewrite Hptr; by apply next_reply_unregistered).
  assert (H1 : _pendingCallbackMap (self w1) !! reply_ptr reply = Some callbackParams)
    by (rewrite Hp; apply lookup_insert_eq).
  rewrite (deliver_single SigError reply errorCode w1 _ Herr). cbn [runSlot].
  set (w2 := snd (passErrorToCallback reply errorCode w1)).
  assert (Hc2 : connectedSlots (reply_ptr reply) SigFinished (connections w2)
                = [SlotPassSuccessToCallback]).
  { replace (connections w2) with (connections w1); [exact Hfin|].
    symmetry. apply passErrorToCallback_frame. }
  rewrite (deliver_single SigFinished reply errorCode w2 _ Hc2). cbn [runSlot].
  destruct (errorCallbackReceiver callbackParams) as [receiver|] eqn:He.
  - destruct (passErrorToCallback_invokes w1 reply errorCode callbackParams receiver H1 He)
      as (Hi2 & Hp2 & _). fold w2 in Hi2, Hp2.
    assert (Hp2' : _pendingCallbackMap (self w2) = _pendingCallbackMap (self w)).
    { rewrite Hp2, Hp, delete_insert_eq. by apply delete_id. }
    destruct (passSuccessToCallback_logs w2 reply) as ((Hs3 & _ & _ & _ & _ & Hi3) & _).
    { by rewrite Hp2', Hfresh. }
    split; [by rewrite Hi3, Hi2, Hi | by rewrite Hs3].
  - destruct (passErrorToCallback_logs w1 reply errorCode) as ((Hs2 & _ & _ & _ & _ & Hi2) & _).
    { by rewrite H1. }
    fold w2 in Hs2, Hi2.
    destruct (jsonCallbackReceiver callbackParams) as [receiver|] eqn:Hj.
    + assert (H2 : _pendingCallbackMap (self w2) !! reply_ptr reply = Some callbackParams)
        by (by rewrite Hs2).
      destruct (passSuccessToCallback_invokes w2 reply callbackParams receiver H2 Hj)
        as (Hi3 & Hp3 & _).
      split; [by rewrite Hi3, Hi2, Hi|].
      rewrite Hp3, Hs2, Hp, delete_insert_eq. by apply delete_id.
    + unfold isEmpty in Hne. by rewrite He, Hj in Hne.
Qed.

Lemma request_then_error_and_finished_witness :
  invoked (snd (deliver SigFinished
                  (mkQNetworkReply 1%positive sampleURL ∅ "Host not found") 3
                  (snd (deliver SigError
                          (mkQNetworkReply 1%positive sampleURL ∅ "Host not found") 3
                          (snd (authenticatedRequest "/api/v1/users" GetOperation
                                  bothCallbacks "" loggedIn))))))
  = [InvokeError 7%positive "handleError" 3 "Host not found"].
Proof.
  destruct (request_then_error_and_finished loggedIn "/api/v1/users" GetOperation
              bothCallbacks ""
              (mkQNetworkReply 1%positive sampleURL ∅ "Host not found") 3) as (Hi & _).
  - apply replies_allocated_worldAt.
  - reflexivity.
  - by left.
  - reflexivity.
  - reflexivity.
  - exact Hi.
Defined.

(** A GET or POST request with an empty callback spec is sent all the same,
    but gets no entry in the pending-callback map; whichever signal its reply
    emits, nothing is invoked and the map stays as it was. *)
Theorem request_without_callback (w : World) (path : string) (operation : Operation)
    (callbackParams : JSONCallbackParameters) (dataByteArray : string)
    (reply : QNetworkReply) (sig : ReplySignal) (errorCode : Z) :
  replies_allocated w ->
  fst (hasValidAccessToken w) = true ->
  operation = GetOperation \/ operation = PostOperation ->
  isEmpty callbackParams = true ->
  reply_ptr reply = nextReply (_networkAccessManager (self w)) ->
  let w1 := snd (authenticatedRequest path operation callbackParams dataByteArray w) in
  let w2 := snd (deliver sig reply errorCode w1) in
  length (dispatched (_networkAccessManager (self w1)))
    = S (length (dispatched (_networkAccessManager (self w)))) /\
  _pendingCallbackMap (self w1) = _pendingCallbackMap (self w) /\
  only_logged w1 w2.
Proof.
  intros Hw Hv Hop Hemp Hptr. unfold authenticatedRequest.
  destruct (invokedRequest_effect w path operation callbackParams dataByteArray Hv Hop)
    as (Hn & (request & Hd) & Hp & Hc & _).
  set (w1 := snd (invokedRequest path operation callbackParams dataByteArray w)) in *.
  rewrite Hemp in Hp. cbn zeta.
  destruct (connectedSlots_sent w (connections w1) Hw Hc) as (Hfin & Herr).
  rewrite <- Hptr in Hfin, Herr.
  assert (Hnone : _pendingCallbackMap (self w1) !! reply_ptr reply = None).
  { rewrite Hp, Hptr. by apply next_reply_unregistered. }
  split; [rewrite Hd, length_app; cbn; lia|]. split; [exact Hp|].
  destruct sig.
  - rewrite (deliver_single SigFinished reply errorCode w1 _ Hfin). cbn [runSlot].
    apply passSuccessToCallback_logs. by rewrite Hnone.
  - rewrite (deliver_single SigError reply errorCode w1 _ Herr). cbn [runSlot].
    apply passErrorToCallback_logs. by rewrite Hnone.
Qed.

Lemma request_without_callback_witness :
  _pendingCallbackMap
    (self (snd (authenticatedRequest "/api/v1/heartbeat" PostOperation
                  JSONCallbackParameters_default "status=ok" loggedIn)))
  = _pendingCallbackMap (self loggedIn).
Proof.
  destruct (request_without_callback loggedIn "/api/v1/heartbeat" PostOperation
              JSONCallbackParameters_default "status=ok"
              (mkQNetworkReply 1%positive sampleURL ∅ "") SigFinished 0) as (_ & Hp & _).
  - apply replies_allocated_worldAt.
  - reflexivity.
  - by right.
  - reflexivity.
  - reflexivity.
  - exact Hp.
Defined.

(** *** Switching the root URL *)

(** [setRootURL] never touches the accounts, so whether a token is valid
    after switching to [u] is decided by the entry stored for [u] alone: a
    token obtained earlier for [u] is valid again without a new login.
    Switching to another URL and back keeps the accounts but loses the user
    name. *)
Theorem setRootURL_keeps_accounts (w : World) (u : QUrl) :
  _accounts (self (snd (setRootURL u w))) = _accounts (self w) /\
  fst (hasValidAccessToken (snd (setRootURL u w)))
    = usable (clock w) (_accounts (self w) !! u) /\
  (u <> _rootURL (self w) ->
   let w'' := snd (setRootURL (_rootURL (self w)) (snd (setRootURL u w))) in
   _rootURL (self w'') = _rootURL (self w) /\
   _accounts (self w'') = _accounts (self w) /\
   _username (self w'') = "").
Proof.
  rewrite AccountManagerSpec.hasValidAccessToken_value. unfold currentAccount, usable.
  unfold setRootURL, bind, this. cbn.
  destruct (decide (_rootURL (self w) = u)) as [E|N].
  - rewrite (bool_decide_eq_false_2 (_rootURL (self w) ≠ u)) by (intros H; by apply H).
    cbn. rewrite E. split; [done|]. split; [done|]. intros H. by destruct H.
  - rewrite (bool_decide_eq_true_2 (_rootURL (self w) ≠ u)) by done. cbn.
    split; [done|]. split; [done|]. intros _.
    rewrite (bool_decide_eq_true_2 (u ≠ _rootURL (self w))) by (intros H; by apply N).
    by cbn.
Qed.

Lemma setRootURL_keeps_accounts_witness :
  _username (self (snd (setRootURL sampleURL
                          (snd (setRootURL (setPath "/other" sampleURL) loggedIn))))) = "".
Proof.
  apply (proj2 (proj2 (setRootURL_keeps_accounts loggedIn (setPath "/other" sampleURL)))).
  discriminate.
Defined.

(** *** Logging in *)

(** What [requestFinished] does with a well-formed token response. *)
Lemma requestFinished_effect (w : World) (reply : QNetworkReply) :
  is_Some (reply_json reply !! "access_token") ->
  is_Some (reply_json reply !! "expires_in") ->
  is_Some (reply_json reply !! "token_type") ->
  reply_json reply !! "error" = None ->
  snd (requestFinished reply w)
  = let rootURL := setPath "" (reply_url reply) in
    let info := DataServerAccountInfo_fromJson (clock w) (reply_json reply) in
    mkWorld (set_accounts (<[rootURL := info]> (_accounts (self w))) (self w))
            (clock w)
            (<[(ACCOUNTS_GROUP, replace "//" "slashslash" (QUrl_toString rootURL)) := info]>
               (settings w))
            (connections w)
            (emitted w ++ [receivedAccessToken rootURL])
            (invoked w)
            (debug w ++ [[DText "Storing an account with access-token for";
                          DText (QUrl_toString rootURL)]]).
Proof.
  intros Ha He Ht Herr. unfold requestFinished, QJsonObject_contains.
  rewrite (bool_decide_eq_false_2 (is_Some (reply_json reply !! "error")))
    by (rewrite Herr; by intros [? ?]).
  rewrite !bool_decide_eq_true_2 by assumption.
  reflexivity.
Qed.

(** The slots that run when the reply of a token request emits a signal. *)
Lemma connectedSlots_token_request (w : World) (login password : string) :
  replies_allocated w ->
  let reply := nextReply (_networkAccessManager (self w)) in
  let w1 := snd (requestAccessToken login password w) in
  connectedSlots reply SigFinished (connections w1) = [SlotRequestFinished] /\
  connectedSlots reply SigError (connections w1) = [SlotRequestError].
Proof.
  intros Hw reply w1.
  assert (Hc : connections w1
               = (connections w ++ [(reply, SigFinished, SlotRequestFinished);
                                    (reply, SigError, SlotRequestError)])%list).
  { subst reply w1. unfold requestAccessToken, send, bind, this. cbn.
    by rewrite <- app_assoc. }
  rewrite Hc. subst reply.
  rewrite !connectedSlots_app, !next_reply_unconnected by done.
  unfold connectedSlots. cbn.
  rewrite !(bool_decide_eq_true_2 (nextReply _ = nextReply _)) by done. by cbn.
Qed.

(** Logging in: [requestAccessToken], then a well-formed token response on
    the reply of that request. The account is stored under the root URL with
    its path emptied and [receivedAccessToken] is emitted for it. If the root
    URL has no path, [hasValidAccessToken] afterwards tests the fresh entry.
    If the root URL has a path, the entry is stored under another key than
    the one [hasValidAccessToken] looks up: the login leaves its answer as it
    was. *)
Theorem login_stores_under_pathless_root (w : World) (login password : string)
    (reply : QNetworkReply) :
  replies_allocated w ->
  reply_ptr reply = nextReply (_networkAccessManager (self w)) ->
  reply_url reply = setPath "/oauth/token" (_rootURL (self w)) ->
  is_Some (reply_json reply !! "access_token") ->
  is_Some (reply_json reply !! "expires_in") ->
  is_Some (reply_json reply !! "token_type") ->
  reply_json reply !! "error" = None ->
  let w2 := snd (deliver SigFinished reply 0 (snd (requestAccessToken login password w))) in
  let info := DataServerAccountInfo_fromJson (clock w) (reply_json reply) in
  _accounts (self w2) = <[setPath "" (_rootURL (self w)) := info]> (_accounts (self w)) /\
  emitted w2 = (emitted w ++ [receivedAccessToken (setPath "" (_rootURL (self w)))])%list /\
  (url_path (_rootURL (self w)) = "" ->
     fst (hasValidAccessToken w2) = usable (clock w) (Some info)) /\
  (url_path (_rootURL (self w)) <> "" ->
     fst (hasValidAccessToken w2) = fst (hasValidAccessToken w)).
Proof.
  intros Hw Hptr Hurl Ha He Ht Herr.
  destruct (connectedSlots_token_request w login password Hw) as (Hfin & _).
  rewrite <- Hptr in Hfin. cbn zeta in Hfin. cbn zeta.
  rewrite (deliver_single SigFinished reply 0 _ _ Hfin). cbn [runSlot].
  rewrite (requestFinished_effect _ reply Ha He Ht Herr).
  rewrite !AccountManagerSpec.hasValidAccessToken_value. unfold currentAccount.
  rewrite Hurl. unfold requestAccessToken, send, bind, this. cbn.
  split; [done|]. split; [done|].
  destruct (_rootURL (self w)) as [sch auth pth qry frg]. cbn. split.
  - intros ->. unfold setPath. cbn. by rewrite lookup_insert_eq.
  - intros Hpath. unfold setPath. cbn. rewrite lookup_insert_ne; [done|].
    intros [= E]. by apply Hpath.
Qed.

Lemma login_stores_under_pathless_root_witness :
  fst (hasValidAccessToken
         (snd (deliver SigFinished tokenResponse 0
                 (snd (requestAccessToken "alice" "secret" loggedOut)))))
  = true.
Proof.
  destruct (login_stores_under_pathless_root loggedOut "alice" "secret" tokenResponse)
    as (_ & _ & Hv & _).
  - apply replies_allocated_worldAt.
  - reflexivity.
  - reflexivity.
  - by eexists.
  - by eexists.
  - by eexists.
  - reflexivity.
  - rewrite Hv; reflexivity.
Defined.

(** A token request whose reply emits [error] writes one debug line and
    nothing else: no signal, no retry, no change to the accounts. *)
Theorem token_request_error (w : World) (login password : string)
    (reply : QNetworkReply) (errorCode : Z) :
  replies_allocated w ->
  reply_ptr reply = nextReply (_networkAccessManager (self w)) ->
  let w1 := snd (requestAccessToken login password w) in
  let w2 := snd (deliver SigError reply errorCode w1) in
  only_logged w1 w2 /\
  debug w2 = (debug w1 ++ [[DText "AccountManager requestError - "; DErrorCode errorCode]])%list /\
  _accounts (self w2) = _accounts (self w) /\
  emitted w2 = emitted w.
Proof.
  intros Hw Hptr.
  destruct (connectedSlots_token_request w login password Hw) as (_ & Herr).
  rewrite <- Hptr in Herr. cbn zeta in Herr. cbn zeta.
  rewrite (deliver_single SigError reply errorCode _ _ Herr).
  unfold only_logged. by cbn.
Qed.

Lemma token_request_error_witness :
  emitted (snd (deliver SigError errorResponse 203
                  (snd (requestAccessToken "alice" "secret" loggedOut)))) = [].
Proof.
  destruct (token_request_error loggedOut "alice" "secret" errorResponse 203)
    as (_ & _ & _ & He).
  - apply replies_allocated_worldAt.
  - reflexivity.
  - exact He.
Defined.

(** *** Storing accounts *)

(** A second token response for a root URL replaces the entry of the first:
    the accounts map grows by one entry only when the root URL had none.
    Handling a response changes neither the root URL, the user name, the
    pending callbacks, the network access manager nor the connections, and
    handling the same response once more at the same time changes no account
    and no setting. *)
Theorem requestFinished_replaces_entry (w : World) (reply : QNetworkReply) :
  is_Some (reply_json reply !! "access_token") ->
  is_Some (reply_json reply !! "expires_in") ->
  is_Some (reply_json reply !! "token_type") ->
  reply_json reply !! "error" = None ->
  let w' := snd (requestFinished reply w) in
  let w'' := snd (requestFinished reply w') in
  size (_accounts (self w'))
    = match _accounts (self w) !! setPath "" (reply_url reply) with
      | Some _ => size (_accounts (self w))
      | None => S (size (_accounts (self w)))
      end /\
  _rootURL (self w') = _rootURL (self w) /\
  _username (self w') = _username (self w) /\
  slot_frame w w' /\
  _pendingCallbackMap (self w') = _pendingCallbackMap (self w) /\
  _accounts (self w'') = _accounts (self w') /\
  settings w'' = settings w'.
Proof.
  intros Ha He Ht Herr. cbn zeta.
  rewrite (requestFinished_effect w reply Ha He Ht Herr).
  rewrite requestFinished_effect by assumption. cbn.
  rewrite map_size_insert, !insert_insert_eq.
  split; [by destruct (_accounts (self w) !! _)|]. by repeat split.
Qed.

Lemma requestFinished_replaces_entry_witness :
  size (_accounts (self (snd (requestFinished tokenResponse loggedIn)))) = 1.
Proof.
  destruct (requestFinished_replaces_entry loggedIn tokenResponse) as (Hsize & _).
  - by eexists.
  - by eexists.
  - by eexists.
  - reflexivity.
  - rewrite Hsize. reflexivity.
Defined.

Lemma prefix_double_slash (c : Ascii.ascii) (x : string) :
  String.prefix "//" (String c x) = bool_decide (c = "/"%char) && String.prefix "/" x.
Proof.
  change (String.prefix "//" (String c x))
    with (if Ascii.ascii_dec "/" c then String.prefix "/" x else false).
  destruct (Ascii.ascii_dec "/" c) as [<-|N].
  - by rewrite bool_decide_eq_true_2.
  - by rewrite bool_decide_eq_false_2.
Qed.

Lemma prefix_slash (c : Ascii.ascii) (x : string) :
  String.prefix "/" (String c x) = bool_decide (c = "/"%char).
Proof.
  change (String.prefix "/" (String c x))
    with (if Ascii.ascii_dec "/" c then String.prefix "" x else false).
  destruct (Ascii.ascii_dec "/" c) as [<-|N].
  - rewrite bool_decide_eq_true_2 by done. by destruct x.
  - by rewrite bool_decide_eq_false_2.
Qed.

(** Replacing "//" leaves no two slashes in a row, and the result starts with
    a slash only where the text started with a single one. *)
Lemma replace_from_double_slash (s : string) :
  has_double_slash (replace_from 0 "//" "slashslash" s) = false /\
  has_double_slash (replace_from 1 "//" "slashslash" s) = false /\
  (String.prefix "/" (replace_from 0 "//" "slashslash" s) = true ->
   String.prefix "/" s = true /\ String.prefix "//" s = false).
Proof.
  induction s as [|c r (IH0 & IH1 & IHp)]; [done|].
  split; [|split].
  - cbn [replace_from]. destruct (String.prefix "//" (String c r)) eqn:Hpre.
    + cbn. exact IH1.
    + cbn [has_double_slash]. rewrite IH0, orb_false_r.
      rewrite prefix_double_slash in Hpre |- *.
      destruct (bool_decide (c = "/"%char)); [cbn in *|done].
      destruct (String.prefix "/" (replace_from 0 "//" "slashslash" r)) eqn:E; [|done].
      destruct (IHp eq_refl) as (Hr & _). congruence.
  - exact IH0.
  - cbn [replace_from]. destruct (String.prefix "//" (String c r)) eqn:Hpre.
    + cbn. discriminate.
    + rewrite !prefix_slash. intros H. by split.
Qed.

(** The settings key under which [requestFinished] stores an account never
    holds two slashes in a row. *)
Theorem settings_key_without_double_slash (w : World) (reply : QNetworkReply) :
  is_Some (reply_json reply !! "access_token") ->
  is_Some (reply_json reply !! "expires_in") ->
  is_Some (reply_json reply !! "token_type") ->
  reply_json reply !! "error" = None ->
  exists key,
    settings (snd (requestFinished reply w))
      = <[(ACCOUNTS_GROUP, key) :=
            DataServerAccountInfo_fromJson (clock w) (reply_json reply)]> (settings w) /\
    has_double_slash key = false.
Proof.
  intros Ha He Ht Herr.
  rewrite (requestFinished_effect w reply Ha He Ht Herr). cbn.
  eexists. split; [reflexivity|]. apply replace_from_double_slash.
Qed.

Lemma settings_key_without_double_slash_witness :
  exists key,
    settings (snd (requestFinished tokenResponse loggedOut))
      = <[(ACCOUNTS_GROUP, key) :=
            DataServerAccountInfo_fromJson 10 (reply_json tokenResponse)]> ∅ /\
    has_double_slash key = false.
Proof.
  apply (settings_key_without_double_slash loggedOut tokenResponse).
  - by eexists.
  - by eexists.
  - by eexists.
  - reflexivity.
Defined.

(** *** Construction *)

Section Construction.

Variable QUrl_fromString : string -> QUrl.
Variable stored : gmap (string * string) DataServerAccountInfo.

Lemma loadAccounts_snoc (keys : list string) (key : string) :
  loadAccounts QUrl_fromString stored (keys ++ [key])
  = <[keyURL QUrl_fromString key := storedValue stored key]>
      (loadAccounts QUrl_fromString stored keys).
Proof. unfold loadAccounts. by rewrite foldl_app. Qed.

Lemma loadAccounts_sound (keys : list string) (u : QUrl) (info : DataServerAccountInfo) :
  loadAccounts QUrl_fromString stored keys !! u = Some info ->
  exists key, key ∈ keys /\ keyURL QUrl_fromString key = u /\ info = storedValue stored key.
Proof.
  induction keys as [|key keys IH] using rev_ind;
    [unfold loadAccounts; cbn; by rewrite lookup_empty|].
  rewrite loadAccounts_snoc.
  destruct (decide (keyURL QUrl_fromString key = u)) as [<-|Hne].
  - rewrite lookup_insert_eq. intros [= <-]. exists key.
    split; [apply elem_of_app; right; by apply list_elem_of_singleton | done].
  - rewrite lookup_insert_ne by done. intros H.
    destruct (IH H) as (k & Hin & Hu & Hi). exists k.
    split; [apply elem_of_app; by left | done].
Qed.

Lemma loadAccounts_complete (keys : list string) (key : string) :
  key ∈ keys ->
  is_Some (loadAccounts QUrl_fromString stored keys !! keyURL QUrl_fromString key).
Proof.
  induction keys as [|k keys IH] using rev_ind; [intros H; by apply elem_of_nil in H|].
  rewrite loadAccounts_snoc. intros Hin.
  destruct (decide (keyURL QUrl_fromString k = keyURL QUrl_fromString key)) as [E|Hne].
  - rewrite E, lookup_insert_eq. by eexists.
  - rewrite lookup_insert_ne by done. apply IH.
    apply elem_of_app in Hin as [Hin|Hin]; [done|].
    apply list_elem_of_singleton in Hin. by subst.
Qed.

Lemma loadAccounts_distinct (keys : list string) (key : string) :
  NoDup (keyURL QUrl_fromString <$> keys) ->
  key ∈ keys ->
  loadAccounts QUrl_fromString stored keys !! keyURL QUrl_fromString key
  = Some (storedValue stored key).
Proof.
  induction keys as [|k keys IH] using rev_ind; [intros _ H; by apply elem_of_nil in H|].
  rewrite loadAccounts_snoc, fmap_app. intros Hnd Hin.
  apply NoDup_app in Hnd as (Hnd & Hsep & _).
  apply elem_of_app in Hin as [Hin|Hin].
  - rewrite lookup_insert_ne; [by apply IH|].
    intros E. apply (Hsep (keyURL QUrl_fromString key)).
    + apply list_elem_of_fmap. by exists key.
    + rewrite <- E. cbn. by apply list_elem_of_singleton.
  - apply list_elem_of_singleton in Hin as ->. by rewrite lookup_insert_eq.
Qed.

(** A new AccountManager has an empty root URL, user name and
    pending-callback map, has sent nothing and leaves the settings as they
    are. Every account it holds was read from a key of the settings group
    "accounts", every such key has an account under its URL, and when no two
    keys stand for the same URL each key's account is the value stored under
    it. *)
Theorem construct_loads_accounts (now : Z) (keys : list string) :
  let w := construct QUrl_fromString now stored keys in
  replies_allocated w /\
  _rootURL (self w) = QUrl_empty /\ _username (self w) = "" /\
  _pendingCallbackMap (self w) = ∅ /\
  dispatched (_networkAccessManager (self w)) = [] /\
  settings w = stored /\ emitted w = [] /\
  length (debug w) = length keys /\
  (forall u info, _accounts (self w) !! u = Some info ->
     exists key, key ∈ keys /\ keyURL QUrl_fromString key = u /\
                 info = storedValue stored key) /\
  (forall key, key ∈ keys ->
     is_Some (_accounts (self w) !! keyURL QUrl_fromString key)) /\
  (NoDup (keyURL QUrl_fromString <$> keys) ->
   forall key, key ∈ keys ->
     _accounts (self w) !! keyURL QUrl_fromString key
     = Some (storedValue stored key)).
Proof.
  cbv zeta. repeat split.
  - intros r [p Hp].
    unfold construct in Hp. cbn [self _pendingCallbackMap] in Hp.
    by rewrite lookup_empty in Hp.
  - intros r sig slot Hin. by apply elem_of_nil in Hin.
  - intros d Hin. by apply elem_of_nil in Hin.
  - cbn. by rewrite length_fmap.
  - apply loadAccounts_sound.
  - apply loadAccounts_complete.
  - intros Hnd key Hin. by apply loadAccounts_distinct.
Qed.

(** On a first start (no key in the settings group "accounts") no root URL
    has a valid token: whatever root URL is set, [checkAndSignalForAccessToken]
    answers no and emits [authenticationRequired]. *)
Theorem construct_first_start (now : Z) (u : QUrl) :
  let w := snd (setRootURL u (construct QUrl_fromString now stored [])) in
  fst (checkAndSignalForAccessToken w) = false /\
  emitted (snd (checkAndSignalForAccessToken w)) = [authenticationRequired].
Proof.
  unfold setRootURL, bind, this. cbn.
  destruct (bool_decide (QUrl_empty ≠ u)); by cbn.
Qed.

End Construction.

Lemma construct_loads_accounts_witness :
  let parse := fun key : string => mkQUrl "https" "data.example.org" "" None None in
  let stored : gmap (string * string) DataServerAccountInfo :=
    {[ ("accounts", "https:slashslashdata.example.org") := sampleToken ]} in
  _accounts (self (construct parse 10 stored ["https:slashslashdata.example.org"]))
    !! sampleURL = Some sampleToken.
Proof.
  intros parse stored.
  destruct (construct_loads_accounts parse stored 10 ["https:slashslashdata.example.org"])
    as (_ & _ & _ & _ & _ & _ & _ & _ & _ & _ & Hdistinct).
  exact (Hdistinct (NoDup_singleton _) "https:slashslashdata.example.org"
                   (list_elem_of_here _ _)).
Defined.

End AccountManagerMore.
